(** * spotify-endsong-artwork: a shallow embedding of [main.go]

    The repository holds two variants of one program.  Both read a user's
    exported streaming history, sort it by timestamp, look up the album
    artwork of every track through the Spotify Web API (once per track id)
    and write [sorted_streams.json].  The variants differ in how the input
    files are discovered ([endsong_0.json], [endsong_1.json], ... against a
    scan of the working directory) and in whether a skipped record is
    logged.

    Everything outside [main.go] is a parameter of the model: the file
    system, the token exchange, the remote catalog and the text form of
    [time.Time] live in the record [Env]; the standard output, the progress
    bar, the remote-call log and the output file live in the record
    [World], which every stage threads through. *)

From Stdlib Require Import ZArith String Ascii List Lia Permutation Sorted.
From stdpp Require Import base option list strings pretty gmap sorting.

#[local] Set Warnings "-register-all,-clear-no-such-hyp".

Local Open Scope string_scope.
Local Open Scope Z_scope.
Local Open Scope list_scope.

(** ** Results of fallible code *)

(** [log.Fatal] prints its diagnostic and calls [os.Exit(1)]; a run-time
    panic (an index out of range) prints a trace and exits with status 2.
    [Spin] is the answer of a loop of the model that was given too little
    fuel: it stands for no behaviour of the program. *)
Inductive res (A : Type) : Type :=
| Ok (a : A)
| Fatal (msg : string)
| Panic (msg : string)
| Spin.
Arguments Ok {A} a.
Arguments Fatal {A} msg.
Arguments Panic {A} msg.
Arguments Spin {A}.

Definition res_bind {A B} (r : res A) (k : A → res B) : res B :=
  match r with
  | Ok a => k a
  | Fatal m => Fatal m
  | Panic m => Panic m
  | Spin => Spin
  end.

Definition exit_code {A} (r : res A) : option Z :=
  match r with
  | Ok _ => Some 0
  | Fatal _ => Some 1
  | Panic _ => Some 2
  | Spin => None
  end.

(** ** Data model *)

(** [time.Time]: the instant (nanoseconds since the Unix epoch) and the
    offset of the zone the value was read in.  [Before] compares instants
    only. *)
Record Time : Type := mkTime { unixNano : Z; zoneOffset : Z }.

Definition Before (t u : Time) : bool := unixNano t <? unixNano u.

Definition ReasonStart : Type := string.
Definition Appload : ReasonStart := "appload".
Definition Clickrow : ReasonStart := "clickrow".
Definition Playbtn : ReasonStart := "playbtn".
Definition ReasonStartBackbtn : ReasonStart := "backbtn".
Definition ReasonStartFwdbtn : ReasonStart := "fwdbtn".
Definition ReasonStartRemote : ReasonStart := "remote".
Definition ReasonStartTrackdone : ReasonStart := "trackdone".
Definition ReasonStartTrackerror : ReasonStart := "trackerror".

Definition ReasonEnd : Type := string.
Definition Endplay : ReasonEnd := "endplay".
Definition Logout : ReasonEnd := "logout".
Definition ReasonEndBackbtn : ReasonEnd := "backbtn".
Definition ReasonEndFwdbtn : ReasonEnd := "fwdbtn".
Definition ReasonEndRemote : ReasonEnd := "remote".
Definition ReasonEndTrackdone : ReasonEnd := "trackdone".
Definition ReasonEndTrackerror : ReasonEnd := "trackerror".
Definition UnexpectedExit : ReasonEnd := "unexpected-exit".
Definition UnexpectedExitWhilePaused : ReasonEnd := "unexpected-exit-while-paused".
Definition Unknown : ReasonEnd := "unknown".

(** [type Stream struct]: a Go pointer field ([*string], [*bool]) is an
    [option]; [int64] is a [Z] kept in range by [wfStream]. *)
Record Stream : Type := mkStream {
  Ts : Time;
  Username : string;
  Platform : string;
  MSPlayed : Z;
  ConnCountry : string;
  IPAddrDecrypted : string;
  UserAgentDecrypted : option string;
  MasterMetadataTrackName : string;
  MasterMetadataAlbumArtistName : string;
  MasterMetadataAlbumAlbumName : string;
  SpotifyTrackURI : string;
  EpisodeName : option string;
  EpisodeShowName : option string;
  SpotifyEpisodeURI : option string;
  Reason_Start : ReasonStart;
  Reason_End : ReasonEnd;
  Shuffle : bool;
  Skipped : option bool;
  Offline : bool;
  OfflineTimestamp : Z;
  IncognitoMode : bool;
  ArtworkURL : option string
}.

Definition int64_ok (z : Z) : bool := (- 2 ^ 63 <=? z) && (z <? 2 ^ 63).

Definition wfStream (s : Stream) : Prop :=
  int64_ok (MSPlayed s) = true ∧ int64_ok (OfflineTimestamp s) = true.

(** The zero value of the struct, which [json.Unmarshal] starts from. *)
Definition zeroStream : Stream :=
  {| Ts := mkTime 0 0; Username := ""; Platform := ""; MSPlayed := 0;
     ConnCountry := ""; IPAddrDecrypted := ""; UserAgentDecrypted := None;
     MasterMetadataTrackName := ""; MasterMetadataAlbumArtistName := "";
     MasterMetadataAlbumAlbumName := ""; SpotifyTrackURI := "";
     EpisodeName := None; EpisodeShowName := None; SpotifyEpisodeURI := None;
     Reason_Start := ""; Reason_End := ""; Shuffle := false; Skipped := None;
     Offline := false; OfflineTimestamp := 0; IncognitoMode := false;
     ArtworkURL := None |}.

(** [allStreams[i].ArtworkURL = &trackArtwork]: the one field the program
    assigns. *)
Definition setArtworkURL (s : Stream) (a : option string) : Stream :=
  {| Ts := Ts s; Username := Username s; Platform := Platform s;
     MSPlayed := MSPlayed s; ConnCountry := ConnCountry s;
     IPAddrDecrypted := IPAddrDecrypted s;
     UserAgentDecrypted := UserAgentDecrypted s;
     MasterMetadataTrackName := MasterMetadataTrackName s;
     MasterMetadataAlbumArtistName := MasterMetadataAlbumArtistName s;
     MasterMetadataAlbumAlbumName := MasterMetadataAlbumAlbumName s;
     SpotifyTrackURI := SpotifyTrackURI s; EpisodeName := EpisodeName s;
     EpisodeShowName := EpisodeShowName s;
     SpotifyEpisodeURI := SpotifyEpisodeURI s;
     Reason_Start := Reason_Start s; Reason_End := Reason_End s;
     Shuffle := Shuffle s; Skipped := Skipped s; Offline := Offline s;
     OfflineTimestamp := OfflineTimestamp s;
     IncognitoMode := IncognitoMode s; ArtworkURL := a |}.

(** ** The key extractor (addStreamArtworks, the head of the loop body) *)

(** [strings.Split(s, ":")] for a one-byte separator: the pieces between
    the separators, one more than there are separators; [[""]] for the
    empty string. *)
Fixpoint strings_Split (s : string) (sep : ascii) : list string :=
  match s with
  | EmptyString => [EmptyString]
  | String c rest =>
      if Ascii.eqb c sep then EmptyString :: strings_Split rest sep
      else match strings_Split rest sep with
           | [] => [String c EmptyString]
           | w :: ws => String c w :: ws
           end
  end.

(** [strings.Contains] for one byte. *)
Fixpoint contains (s : string) (c : ascii) : bool :=
  match s with
  | EmptyString => false
  | String c' rest => Ascii.eqb c' c || contains rest c
  end.

(** [a[i]] on a slice: a run-time panic when [i] is out of range. *)
Definition index (a : list string) (i : nat) : res string :=
  match a !! i with
  | Some x => Ok x
  | None => Panic "index out of range"
  end.

(** Lines 141-147.  [Ok None] is the [continue] of the guard, [Ok (Some id)]
    is [trackID := splitTrackURI[2]].  The three disjuncts of the guard are
    evaluated from left to right and the evaluation stops at the first true
    one, as Go's [||] does: [splitTrackURI[1]] is read before the length is
    looked at. *)
Definition trackID (uri : string) : res (option string) :=
  let splitTrackURI := strings_Split uri ":"%char in
  res_bind (index splitTrackURI 0) (λ ns,
  if negb (String.eqb ns "spotify") then Ok None else
  res_bind (index splitTrackURI 1) (λ kind,
  if negb (String.eqb kind "track") then Ok None else
  if (length splitTrackURI <? 3)%nat then Ok None else
  res_bind (index splitTrackURI 2) (λ id, Ok (Some id)))).

(** ** JSON documents *)

(** The value a JSON text denotes.  [encoding/json] is not part of the
    repository: the model works on values, not on their text, and keeps of
    a number literal its integer value.  The strings of the program come
    out of a JSON decoder (of the input files, of the answers of the
    remote), so they are valid UTF-8, which the encoder writes unchanged. *)
Inductive json : Type :=
| JNull
| JBool (b : bool)
| JNum (n : Z)
| JStr (s : string)
| JArr (items : list json)
| JObj (members : list (string * json)).

(** ** The world around the program *)

Inductive stat : Type := StatOk | StatNotExist | StatErr.

(** [ioutil.ReadFile]: an error, or bytes, which are a JSON text or not. *)
Inductive content : Type := ReadErr | Bytes (doc : option json).

(** [client.GetTrack]: an error, or a track, of which the program reads
    [Album.Images] only (the artwork URLs, largest first). *)
Inductive response : Type := GetTrackErr | Track (images : list string).

Record Env : Type := mkEnv {
  os_Stat : string → stat;
  ioutil_ReadDir : option (list string);
  ioutil_ReadFile : string → content;
  config_Token : bool;
  (** the answer to the [n]-th call of the run, for the given track id *)
  client_GetTrack : nat → string → response;
  os_Create : bool;
  File_Write : bool;
  Time_MarshalJSON : Time → option string;
  Time_UnmarshalJSON : string → option Time
}.

(** What the program prints, by statement rather than by text. *)
Inductive line : Type :=
| FileDone (fileName : string)
| StreamsTotal (n : nat)
| SkippedStream (s : Stream)
| ArtworksTotal (n : nat)
| StreamsSorted (n : nat).

(** [sorted_streams.json]: missing, created and still empty, or holding a
    document. *)
Inductive artifact : Type := NoFile | Truncated | Holds (doc : json).

Record World : Type := mkWorld {
  output : list line;
  calls : list string;
  bar : nat;
  sorted_streams : artifact
}.

Definition M (A : Type) : Type := World → World * res A.

Definition ret {A} (a : A) : M A := λ w, (w, Ok a).

Definition bind {A B} (m : M A) (k : A → M B) : M B := λ w,
  match m w with
  | (w', Ok a) => k a w'
  | (w', Fatal msg) => (w', Fatal msg)
  | (w', Panic msg) => (w', Panic msg)
  | (w', Spin) => (w', Spin)
  end.

Notation "'let*' x := m 'in' k" := (bind m (λ x, k))
  (at level 10, x pattern, m at level 100, k at level 200, only parsing).
Notation "m ;; k" := (bind m (λ _, k))
  (at level 100, k at level 200, right associativity, only parsing).

Definition lift {A} (r : res A) : M A := λ w, (w, r).
Definition log_Fatal {A} (msg : string) : M A := lift (Fatal msg).

Definition Println (l : line) : M unit := λ w,
  ({| output := (output w ++ [l])%list; calls := calls w; bar := bar w;
      sorted_streams := sorted_streams w |}, Ok tt).

Definition bar_Add (n : nat) : M unit := λ w,
  ({| output := output w; calls := calls w; bar := (bar w + n)%nat;
      sorted_streams := sorted_streams w |}, Ok tt).

(** One remote call: it is appended to the log, and answered by the
    environment according to its position in the run. *)
Definition GetTrack (env : Env) (id : string) : M response := λ w,
  ({| output := output w; calls := (calls w ++ [id])%list; bar := bar w;
      sorted_streams := sorted_streams w |},
   Ok (client_GetTrack env (length (calls w)) id)).

Definition setFile (a : artifact) : M unit := λ w,
  ({| output := output w; calls := calls w; bar := bar w;
      sorted_streams := a |}, Ok tt).

(** ** encoding/json on [Stream] *)

Definition enc_string (o : option string) : json :=
  match o with Some s => JStr s | None => JNull end.

Definition enc_bool (o : option bool) : json :=
  match o with Some b => JBool b | None => JNull end.

(** [json.Marshal] of one [Stream]: no tag of the struct says [omitempty],
    so every field is written, under the name of its tag and in the order
    of the declaration; a nil pointer is written as [null].  The only
    field that can fail is the time. *)
Definition Marshal_Stream (env : Env) (s : Stream) : option json :=
  ts ← Time_MarshalJSON env (Ts s);
  Some (JObj [
    ("ts", JStr ts);
    ("username", JStr (Username s));
    ("platform", JStr (Platform s));
    ("ms_played", JNum (MSPlayed s));
    ("conn_country", JStr (ConnCountry s));
    ("ip_addr_decrypted", JStr (IPAddrDecrypted s));
    ("user_agent_decrypted", enc_string (UserAgentDecrypted s));
    ("master_metadata_track_name", JStr (MasterMetadataTrackName s));
    ("master_metadata_album_artist_name", JStr (MasterMetadataAlbumArtistName s));
    ("master_metadata_album_album_name", JStr (MasterMetadataAlbumAlbumName s));
    ("spotify_track_uri", JStr (SpotifyTrackURI s));
    ("episode_name", enc_string (EpisodeName s));
    ("episode_show_name", enc_string (EpisodeShowName s));
    ("spotify_episode_uri", enc_string (SpotifyEpisodeURI s));
    ("reason_start", JStr (Reason_Start s));
    ("reason_end", JStr (Reason_End s));
    ("shuffle", JBool (Shuffle s));
    ("skipped", enc_bool (Skipped s));
    ("offline", JBool (Offline s));
    ("offline_timestamp", JNum (OfflineTimestamp s));
    ("incognito_mode", JBool (IncognitoMode s));
    ("artwork_url", enc_string (ArtworkURL s))]).

(** [json.Marshal] of the slice.  The slice of the program is nil when it
    is empty (it only grows by [append] from nil), and a nil slice is
    written as [null]. *)
Definition Marshal (env : Env) (allStreams : list Stream) : option json :=
  match allStreams with
  | [] => Some JNull
  | _ => JArr <$> mapM (Marshal_Stream env) allStreams
  end.

(** The values an object gives to one key, in the order of the text. *)
Fixpoint values (key : string) (members : list (string * json)) : list json :=
  match members with
  | [] => []
  | (k, v) :: rest =>
      if String.eqb k key then v :: values key rest else values key rest
  end.

(** How [json.Unmarshal] stores a value into a field of each Go type.
    [null] leaves a field that is not a pointer as it is and sets a pointer
    to nil; a value of another JSON type is an error. *)
Definition dec_string (acc : option string) (v : json) : option string :=
  a ← acc; match v with JNull => Some a | JStr s => Some s | _ => None end.

Definition dec_ptr_string (acc : option (option string)) (v : json)
  : option (option string) :=
  _ ← acc; match v with JNull => Some None | JStr s => Some (Some s) | _ => None end.

Definition dec_bool (acc : option bool) (v : json) : option bool :=
  a ← acc; match v with JNull => Some a | JBool b => Some b | _ => None end.

Definition dec_ptr_bool (acc : option (option bool)) (v : json)
  : option (option bool) :=
  _ ← acc; match v with JNull => Some None | JBool b => Some (Some b) | _ => None end.

Definition dec_int64 (acc : option Z) (v : json) : option Z :=
  a ← acc;
  match v with
  | JNull => Some a
  | JNum n => if int64_ok n then Some n else None
  | _ => None
  end.

Definition dec_time (env : Env) (acc : option Time) (v : json) : option Time :=
  a ← acc;
  match v with
  | JNull => Some a
  | JStr s => Time_UnmarshalJSON env s
  | _ => None
  end.

(** [json.Unmarshal] of one object into a zero [Stream]: every member
    whose key is the tag of a field is stored into that field, a later
    member over an earlier one, and any other member is ignored.  (Go also
    accepts a key that differs from the tag by case only; the model does
    not.) *)
Definition Unmarshal_Stream (env : Env) (members : list (string * json))
  : option Stream :=
  let at_ {A} (dec : option A → json → option A) (key : string) (zero : A) :=
    foldl dec (Some zero) (values key members) in
  ts ← at_ (dec_time env) "ts" (Ts zeroStream);
  username ← at_ dec_string "username" "";
  platform ← at_ dec_string "platform" "";
  ms_played ← at_ dec_int64 "ms_played" 0;
  conn_country ← at_ dec_string "conn_country" "";
  ip_addr_decrypted ← at_ dec_string "ip_addr_decrypted" "";
  user_agent_decrypted ← at_ dec_ptr_string "user_agent_decrypted" None;
  track_name ← at_ dec_string "master_metadata_track_name" "";
  artist_name ← at_ dec_string "master_metadata_album_artist_name" "";
  album_name ← at_ dec_string "master_metadata_album_album_name" "";
  spotify_track_uri ← at_ dec_string "spotify_track_uri" "";
  episode_name ← at_ dec_ptr_string "episode_name" None;
  episode_show_name ← at_ dec_ptr_string "episode_show_name" None;
  spotify_episode_uri ← at_ dec_ptr_string "spotify_episode_uri" None;
  reason_start ← at_ dec_string "reason_start" "";
  reason_end ← at_ dec_string "reason_end" "";
  shuffle ← at_ dec_bool "shuffle" false;
  skipped ← at_ dec_ptr_bool "skipped" None;
  offline ← at_ dec_bool "offline" false;
  offline_timestamp ← at_ dec_int64 "offline_timestamp" 0;
  incognito_mode ← at_ dec_bool "incognito_mode" false;
  artwork_url ← at_ dec_ptr_string "artwork_url" None;
  Some {| Ts := ts; Username := username; Platform := platform;
          MSPlayed := ms_played; ConnCountry := conn_country;
          IPAddrDecrypted := ip_addr_decrypted;
          UserAgentDecrypted := user_agent_decrypted;
          MasterMetadataTrackName := track_name;
          MasterMetadataAlbumArtistName := artist_name;
          MasterMetadataAlbumAlbumName := album_name;
          SpotifyTrackURI := spotify_track_uri;
          EpisodeName := episode_name; EpisodeShowName := episode_show_name;
          SpotifyEpisodeURI := spotify_episode_uri;
          Reason_Start := reason_start; Reason_End := reason_end;
          Shuffle := shuffle; Skipped := skipped; Offline := offline;
          OfflineTimestamp := offline_timestamp;
          IncognitoMode := incognito_mode; ArtworkURL := artwork_url |}.

Definition Unmarshal_item (env : Env) (v : json) : option Stream :=
  match v with
  | JNull => Some zeroStream
  | JObj members => Unmarshal_Stream env members
  | _ => None
  end.

(** [json.Unmarshal(content, &fileStreams)] into a nil [[]Stream]: [None]
    is a non-nil error. *)
Definition Unmarshal (env : Env) (content : option json) : option (list Stream) :=
  match content with
  | None => None
  | Some JNull => Some []
  | Some (JArr items) => mapM (Unmarshal_item env) items
  | Some _ => None
  end.

(** ** The stages of the program *)

(** [strings.HasPrefix] and [strings.HasSuffix]. *)
Definition HasPrefix (s prefix : string) : bool := String.prefix prefix s.

Definition HasSuffix (s suffix : string) : bool :=
  (String.length suffix <=? String.length s)%nat
  && String.eqb
       (String.substring (String.length s - String.length suffix)
                         (String.length suffix) s)
       suffix.

(** What the two variants share in the body of their loops: read the file,
    decode it, append its streams, report it. *)
Definition readFile (env : Env) (fileName : string) (allStreams : list Stream)
  : M (list Stream) :=
  match ioutil_ReadFile env fileName with
  | ReadErr => log_Fatal "Error when opening file: "
  | Bytes content =>
      match Unmarshal env content with
      | None => log_Fatal "Error during Unmarshal(): "
      | Some fileStreams =>
          Println (FileDone fileName) ;;
          ret (allStreams ++ fileStreams)%list
      end
  end.

(** The first variant: [endsong_0.json], [endsong_1.json], ... up to the
    first name that does not exist.  The [for] of the source has no bound;
    the model gives it fuel. *)
Module Numbered.

Fixpoint loop (env : Env) (fuel fileIndex : nat) (allStreams : list Stream)
  : M (list Stream) :=
  match fuel with
  | O => lift Spin
  | S fuel' =>
      let fileName := "endsong_" +:+ pretty fileIndex +:+ ".json" in
      match os_Stat env fileName with
      | StatOk =>
          let* allStreams := readFile env fileName allStreams in
          loop env fuel' (S fileIndex) allStreams
      | StatNotExist =>
          if (fileIndex =? 0)%nat
          then log_Fatal "No endsong_0.json file found"
          else ret allStreams
      | StatErr => log_Fatal "Error when opening file: "
      end
  end.

Definition readEndsongFiles (env : Env) (fuel : nat) : M (list Stream) :=
  loop env fuel 0 [].

(** This variant logs every record it skips. *)
Definition logsSkipped : bool := true.

End Numbered.

(** The second variant: every [*.json] of the working directory whose name
    starts with [endsong_] or [Streaming_History_Audio_], in the order of
    [ioutil.ReadDir] (sorted by name). *)
Module Scanned.

Fixpoint loop (env : Env) (files : list string) (allStreams : list Stream)
  : M (list Stream) :=
  match files with
  | [] => ret allStreams
  | fileName :: files' =>
      if negb (HasSuffix fileName ".json") then loop env files' allStreams
      else if HasPrefix fileName "endsong_"
              || HasPrefix fileName "Streaming_History_Audio_"
      then let* allStreams := readFile env fileName allStreams in
           loop env files' allStreams
      else loop env files' allStreams
  end.

Definition readEndsongFiles (env : Env) : M (list Stream) :=
  match ioutil_ReadDir env with
  | None => log_Fatal "Error while reading directory"
  | Some files => loop env files []
  end.

(** The log line of the skipped record is commented out here. *)
Definition logsSkipped : bool := false.

End Scanned.

(** [sort.SliceStable(x, less)] is code of Go's library.  The model is its
    documented contract, a sort that keeps equal elements in their original
    order, as the insertion sort the library itself runs on short blocks:
    an element goes in front of the first element of the sorted rest that
    is not less than it.  For the [less] of [main] the contract leaves no
    choice of the result ([SliceStable_unique]), so any sort that meets it
    computes this list. *)
Fixpoint insert_by {A} (less : A → A → bool) (x : A) (sorted : list A) : list A :=
  match sorted with
  | [] => [x]
  | y :: ys => if less y x then y :: insert_by less x ys else x :: y :: ys
  end.

Fixpoint SliceStable {A} (less : A → A → bool) (x : list A) : list A :=
  match x with
  | [] => []
  | a :: rest => insert_by less a (SliceStable less rest)
  end.

(** The [less] of [main]. *)
Definition lessTs (a b : Stream) : bool := Before (Ts a) (Ts b).

(** Lines 141-160, one turn of the loop of [addStreamArtworks] on the
    record [allStreams[i]]: the record it leaves at index [i] and the map
    it leaves in [artworkByID]. *)
Definition enrich (env : Env) (logsSkipped : bool)
    (artworkByID : gmap string string) (s : Stream)
  : M (gmap string string * Stream) :=
  let* key := lift (trackID (SpotifyTrackURI s)) in
  match key with
  | None =>
      (if logsSkipped then Println (SkippedStream s) else ret tt) ;;
      ret (artworkByID, s)
  | Some trackID =>
      let* (artworkByID, trackArtwork) :=
        match artworkByID !! trackID with
        | Some trackArtwork => ret (artworkByID, trackArtwork)
        | None =>
            let* track := GetTrack env trackID in
            match track with
            | GetTrackErr => log_Fatal "Error when getting Spotify track: "
            | Track images =>
                let* trackArtwork := lift (index images 0) in
                ret (<[trackID := trackArtwork]> artworkByID, trackArtwork)
            end
        end in
      bar_Add 1 ;;
      ret (artworkByID, setArtworkURL s (Some trackArtwork))
  end.

(** [for i := 0; i < len(allStreams); i++].  The test [i < len] is the
    lookup; [n] bounds the turns that are left. *)
Fixpoint artworks_loop (env : Env) (logsSkipped : bool) (n i : nat)
    (allStreams : list Stream) (artworkByID : gmap string string)
  : M (list Stream * gmap string string) :=
  match allStreams !! i with
  | None => ret (allStreams, artworkByID)
  | Some s =>
      match n with
      | O => lift Spin
      | S n' =>
          let* (artworkByID, s') := enrich env logsSkipped artworkByID s in
          artworks_loop env logsSkipped n' (S i) (<[i := s']> allStreams) artworkByID
      end
  end.

Definition addStreamArtworks (env : Env) (logsSkipped : bool)
    (allStreams : list Stream) : M (list Stream) :=
  if negb (config_Token env) then log_Fatal "couldn't get token: " else
  let* (allStreams, artworkByID) :=
    artworks_loop env logsSkipped (length allStreams) 0 allStreams ∅ in
  Println (ArtworksTotal (size artworkByID)) ;;
  ret allStreams.

(** [*os.File]: nil, or an open file. *)
Inductive File : Type := nilFile | openFile.

(** [os.Create("sorted_streams.json")]: the file, created or truncated, or
    nil with an error.  The program drops the error
    ([sortedFile, _ := os.Create(...)]), so only the file is returned. *)
Definition Create (env : Env) : M File :=
  if os_Create env then setFile Truncated ;; ret openFile else ret nilFile.

(** [f.Write(b)]; [false] is a non-nil error.  On a nil file it is
    [os.ErrInvalid], without a panic. *)
Definition Write (env : Env) (f : File) (doc : json) : M bool :=
  match f with
  | nilFile => ret false
  | openFile =>
      if File_Write env then setFile (Holds doc) ;; ret true else ret false
  end.

(** [enc.Encode(allStreams)]: marshal, then one write of the whole text;
    [false] is a non-nil error.  [SetEscapeHTML] and [SetIndent] change the
    text only, not the value it denotes. *)
Definition Encode (env : Env) (f : File) (allStreams : list Stream) : M bool :=
  match Marshal env allStreams with
  | None => ret false
  | Some doc => Write env f doc
  end.

(** The deferred [Close] has no effect on what the model observes, and
    [log.Fatal] exits without running it. *)
Definition writeSortedFile (env : Env) (allStreams : list Stream) : M unit :=
  let* sortedFile := Create env in
  let* ok := Encode env sortedFile allStreams in
  if ok then Println (StreamsSorted (length allStreams))
  else log_Fatal "Error when encoding file: ".

Definition main_with (readEndsongFiles : M (list Stream)) (logsSkipped : bool)
    (env : Env) : M unit :=
  let* allStreams := readEndsongFiles in
  let allStreamsCount := length allStreams in
  Println (StreamsTotal allStreamsCount) ;;
  if (allStreamsCount =? 0)%nat then ret tt else
  let allStreams := SliceStable lessTs allStreams in
  let* allStreams := addStreamArtworks env logsSkipped allStreams in
  writeSortedFile env allStreams.

(** The two variants of the program; the first carries the fuel of its
    reading loop. *)
Inductive variant : Type := numbered (fuel : nat) | scanned.

Definition readEndsongFiles (v : variant) (env : Env) : M (list Stream) :=
  match v with
  | numbered fuel => Numbered.readEndsongFiles env fuel
  | scanned => Scanned.readEndsongFiles env
  end.

Definition logsSkipped (v : variant) : bool :=
  match v with
  | numbered _ => Numbered.logsSkipped
  | scanned => Scanned.logsSkipped
  end.

Definition main (v : variant) (env : Env) : M unit :=
  main_with (readEndsongFiles v env) (logsSkipped v) env.

(** ** Notions the statements use *)

(** The turns of [artworks_loop] from index [i] on, by recursion on the
    records that are left; [artworks_loop] is shown to compute it. *)
Fixpoint enrichAll (env : Env) (logsSkipped : bool) (rest : list Stream)
    (artworkByID : gmap string string)
  : M (list Stream * gmap string string) :=
  match rest with
  | [] => ret ([], artworkByID)
  | s :: rest' =>
      let* (artworkByID, s') := enrich env logsSkipped artworkByID s in
      let* (out, artworkByID) := enrichAll env logsSkipped rest' artworkByID in
      ret (s' :: out, artworkByID)
  end.

(** The track ids of the records the guard lets through, in the order of
    the records. *)
Fixpoint trackIDs (allStreams : list Stream) : list string :=
  match allStreams with
  | [] => []
  | s :: rest =>
      match trackID (SpotifyTrackURI s) with
      | Ok (Some id) => id :: trackIDs rest
      | _ => trackIDs rest
      end
  end.

(** The ids of a list that are not in [seen], each at its first
    occurrence. *)
Fixpoint firsts (seen : gset string) (ids : list string) : list string :=
  match ids with
  | [] => []
  | id :: rest =>
      if decide (id ∈ seen) then firsts seen rest
      else id :: firsts ({[id]} ∪ seen) rest
  end.

(** One turn of the loop, as a relation between the map and the world
    before it and the world and the result after it. *)
Inductive turn (env : Env) (logsSkipped : bool)
    (artworkByID : gmap string string) (s : Stream) (w : World)
  : World → res (gmap string string * Stream) → Prop :=
| turn_skip w' :
    trackID (SpotifyTrackURI s) = Ok None →
    calls w' = calls w → sorted_streams w' = sorted_streams w →
    turn env logsSkipped artworkByID s w w' (Ok (artworkByID, s))
| turn_panic msg :
    trackID (SpotifyTrackURI s) = Panic msg →
    turn env logsSkipped artworkByID s w w (Panic msg)
| turn_hit id trackArtwork w' :
    trackID (SpotifyTrackURI s) = Ok (Some id) →
    artworkByID !! id = Some trackArtwork →
    calls w' = calls w → sorted_streams w' = sorted_streams w →
    turn env logsSkipped artworkByID s w w'
      (Ok (artworkByID, setArtworkURL s (Some trackArtwork)))
| turn_miss id trackArtwork images w' :
    trackID (SpotifyTrackURI s) = Ok (Some id) →
    artworkByID !! id = None →
    client_GetTrack env (length (calls w)) id = Track (trackArtwork :: images) →
    calls w' = (calls w ++ [id])%list → sorted_streams w' = sorted_streams w →
    turn env logsSkipped artworkByID s w w'
      (Ok (<[id := trackArtwork]> artworkByID, setArtworkURL s (Some trackArtwork)))
| turn_fetch_error id w' :
    trackID (SpotifyTrackURI s) = Ok (Some id) →
    artworkByID !! id = None →
    client_GetTrack env (length (calls w)) id = GetTrackErr →
    calls w' = (calls w ++ [id])%list → sorted_streams w' = sorted_streams w →
    turn env logsSkipped artworkByID s w w'
      (Fatal "Error when getting Spotify track: ")
| turn_no_image id w' :
    trackID (SpotifyTrackURI s) = Ok (Some id) →
    artworkByID !! id = None →
    client_GetTrack env (length (calls w)) id = Track [] →
    calls w' = (calls w ++ [id])%list → sorted_streams w' = sorted_streams w →
    turn env logsSkipped artworkByID s w w' (Panic "index out of range").

(** What a record looks like after the loop, given the final map. *)
Definition enriched (artworkByID : gmap string string) (s s' : Stream) : Prop :=
  match trackID (SpotifyTrackURI s) with
  | Ok None => s' = s
  | Ok (Some id) =>
      ∃ trackArtwork, artworkByID !! id = Some trackArtwork
                      ∧ s' = setArtworkURL s (Some trackArtwork)
  | _ => False
  end.

(** What a run of the loop over the records [l], entered with the map [m]
    in the world [w], leaves behind: [cs] are the remote calls it issued. *)
Definition loop_post (env : Env) (l : list Stream) (m : gmap string string)
    (w w' : World) (r : res (list Stream * gmap string string))
    (cs : list string) : Prop :=
  calls w' = calls w ++ cs
  ∧ sorted_streams w' = sorted_streams w
  ∧ cs `prefix_of` firsts (dom m) (trackIDs l)
  ∧ (∀ n id, cs !! n = Some id →
       client_GetTrack env (length (calls w) + n) id = GetTrackErr →
       r = Fatal "Error when getting Spotify track: " ∧ length cs = S n)
  ∧ r ≠ Spin
  ∧ match r with
    | Ok (out, m') =>
        cs = firsts (dom m) (trackIDs l)
        ∧ m ⊆ m'
        ∧ dom m' = dom m ∪ list_to_set cs
        ∧ Forall2 (enriched m') l out
        ∧ (∀ n id, cs !! n = Some id →
             ∃ a imgs,
               client_GetTrack env (length (calls w) + n) id = Track (a :: imgs)
               ∧ m' !! id = Some a)
    | _ => True
    end.

(** The file names [Scanned.loop] reads. *)
Definition isInput (fileName : string) : bool :=
  HasSuffix fileName ".json"
  && (HasPrefix fileName "endsong_" || HasPrefix fileName "Streaming_History_Audio_").

Definition time_law (env : Env) (s : Stream) : Prop :=
  ∀ txt, Time_MarshalJSON env (Ts s) = Some txt →
         Time_UnmarshalJSON env txt = Some (Ts s).

(** The optional fields of a record, under their keys. *)
Definition optionals (s : Stream) : list (string * json) :=
  [("user_agent_decrypted", enc_string (UserAgentDecrypted s));
   ("episode_name", enc_string (EpisodeName s));
   ("episode_show_name", enc_string (EpisodeShowName s));
   ("spotify_episode_uri", enc_string (SpotifyEpisodeURI s));
   ("skipped", enc_bool (Skipped s));
   ("artwork_url", enc_string (ArtworkURL s))].

(** ** Sample runs *)

Definition stream (ts : Z) (uri : string) : Stream :=
  {| Ts := mkTime ts 0; Username := "u"; Platform := "android"; MSPlayed := 1000;
     ConnCountry := "FR"; IPAddrDecrypted := ""; UserAgentDecrypted := None;
     MasterMetadataTrackName := "t"; MasterMetadataAlbumArtistName := "a";
     MasterMetadataAlbumAlbumName := "b"; SpotifyTrackURI := uri;
     EpisodeName := None; EpisodeShowName := None; SpotifyEpisodeURI := None;
     Reason_Start := Clickrow; Reason_End := Endplay; Shuffle := false;
     Skipped := None; Offline := false; OfflineTimestamp := 0;
     IncognitoMode := false; ArtworkURL := None |}.

(** A table for the three instants of the samples. *)
Definition sample_MarshalJSON (t : Time) : option string :=
  if (unixNano t =? 1) && (zoneOffset t =? 0) then Some "T1"
  else if (unixNano t =? 2) && (zoneOffset t =? 0) then Some "T2"
  else if (unixNano t =? 3) && (zoneOffset t =? 0) then Some "T3"
  else None.

Definition sample_UnmarshalJSON (txt : string) : option Time :=
  if String.eqb txt "T1" then Some (mkTime 1 0)
  else if String.eqb txt "T2" then Some (mkTime 2 0)
  else if String.eqb txt "T3" then Some (mkTime 3 0)
  else None.

Definition artwork_of (n : nat) (id : string) : response :=
  Track ["https://i.scdn.co/image/" +:+ id; "https://i.scdn.co/image/small"].

Definition unreachable (n : nat) (id : string) : response := GetTrackErr.

(** A directory that holds [endsong_0.json] with the given bytes and
    nothing else. *)
Definition sampleEnv (doc : option json) (remote : nat → string → response)
    (create write : bool) : Env :=
  {| os_Stat := λ name, if String.eqb name "endsong_0.json" then StatOk else StatNotExist;
     ioutil_ReadDir := Some ["endsong_0.json"; "notes.txt"];
     ioutil_ReadFile := λ name,
       if String.eqb name "endsong_0.json" then Bytes doc else ReadErr;
     config_Token := true;
     client_GetTrack := remote;
     os_Create := create;
     File_Write := write;
     Time_MarshalJSON := sample_MarshalJSON;
     Time_UnmarshalJSON := sample_UnmarshalJSON |}.

(** A directory without input files. *)
Definition noInputEnv : Env :=
  {| os_Stat := λ _, StatNotExist;
     ioutil_ReadDir := Some ["notes.txt"; "sorted_streams.json"];
     ioutil_ReadFile := λ _, ReadErr;
     config_Token := true;
     client_GetTrack := artwork_of;
     os_Create := true;
     File_Write := true;
     Time_MarshalJSON := sample_MarshalJSON;
     Time_UnmarshalJSON := sample_UnmarshalJSON |}.

Definition docOf (allStreams : list Stream) : option json :=
  JArr <$> mapM (Marshal_Stream noInputEnv) allStreams.

Definition world0 : World :=
  {| output := []; calls := []; bar := 0; sorted_streams := NoFile |}.

(** Two plays of one track and one play of an episode, out of order. *)
Definition scenarioB : list Stream :=
  [stream 2 "spotify:track:AAA"; stream 3 "spotify:episode:BBB";
   stream 1 "spotify:track:AAA"].

Definition twoTracks : list Stream :=
  [stream 1 "spotify:track:AAA"; stream 2 "spotify:track:BBB"].

Definition bareNamespace : list Stream := [stream 1 "spotify"].

(** Every collaborator answers; the remote is down. *)
Definition liveEnv : Env := sampleEnv None artwork_of true true.
Definition deadEnv : Env := sampleEnv None unreachable true true.

(** The environments of whole runs: the input file holds the given
    records. *)
Definition runEnv (allStreams : list Stream) (remote : nat → string → response)
    (create write : bool) : Env :=
  sampleEnv (docOf allStreams) remote create write.

(** Scenario B after the sort, and after the enrichment. *)
Definition sortedB : list Stream :=
  [stream 1 "spotify:track:AAA"; stream 2 "spotify:track:AAA";
   stream 3 "spotify:episode:BBB"].

Definition enrichedB : list Stream :=
  [setArtworkURL (stream 1 "spotify:track:AAA") (Some "https://i.scdn.co/image/AAA");
   setArtworkURL (stream 2 "spotify:track:AAA") (Some "https://i.scdn.co/image/AAA");
   stream 3 "spotify:episode:BBB"].

Definition worldB : World :=
  {| output := [SkippedStream (stream 3 "spotify:episode:BBB")];
     calls := ["AAA"]; bar := 2; sorted_streams := NoFile |}.

(** A remote whose answer changes from call to call, and a track played
    before and after another one. *)
Definition drifting (n : nat) (id : string) : response :=
  Track ["https://i.scdn.co/image/" +:+ id +:+ "/" +:+ pretty n].

Definition driftEnv : Env := sampleEnv None drifting true true.

Definition threePlays : list Stream :=
  [stream 1 "spotify:track:AAA"; stream 2 "spotify:track:BBB";
   stream 3 "spotify:track:AAA"].

Definition threePlaysOut : list Stream :=
  [setArtworkURL (stream 1 "spotify:track:AAA") (Some "https://i.scdn.co/image/AAA/0");
   setArtworkURL (stream 2 "spotify:track:BBB") (Some "https://i.scdn.co/image/BBB/1");
   setArtworkURL (stream 3 "spotify:track:AAA") (Some "https://i.scdn.co/image/AAA/0")].

Definition threePlaysMap : gmap string string :=
  {[ "AAA" := "https://i.scdn.co/image/AAA/0";
     "BBB" := "https://i.scdn.co/image/BBB/1" ]}.

Definition threePlaysWorld : World :=
  {| output := []; calls := ["AAA"; "BBB"]; bar := 3; sorted_streams := NoFile |}.

(** The order of the records by instant. *)
Definition le_ts (a b : Stream) : Prop := unixNano (Ts a) ≤ unixNano (Ts b).

(** ** Notions of the further properties *)

(** The world after some more lines were printed. *)
Definition printed (w : World) (ls : list line) : World :=
  {| output := output w ++ ls; calls := calls w; bar := bar w;
     sorted_streams := sorted_streams w |}.

(** The name [fmt.Sprintf("endsong_%d.json", fileIndex)]. *)
Definition endsong (fileIndex : nat) : string :=
  "endsong_" +:+ pretty fileIndex +:+ ".json".

(** The streams of a file that can be read and decoded. *)
Definition decodes (env : Env) (fileName : string) : option (list Stream) :=
  match ioutil_ReadFile env fileName with
  | ReadErr => None
  | Bytes content => Unmarshal env content
  end.

(** The diagnostic of [readFile] on a file that cannot. *)
Definition readFile_diagnostic (env : Env) (fileName : string) : string :=
  match ioutil_ReadFile env fileName with
  | ReadErr => "Error when opening file: "
  | Bytes _ => "Error during Unmarshal(): "
  end.

(** The streams of some files, one file after the other. *)
Definition contents (env : Env) (fileNames : list string) : list Stream :=
  fileNames ≫= (λ fileName, default [] (decodes env fileName)).

(** [readFile] on each name of a list, in order. *)
Fixpoint readFiles (env : Env) (fileNames : list string) (allStreams : list Stream)
  : M (list Stream) :=
  match fileNames with
  | [] => ret allStreams
  | fileName :: rest =>
      let* allStreams := readFile env fileName allStreams in
      readFiles env rest allStreams
  end.

(** The records the guard skips. *)
Definition isSkipped (s : Stream) : bool :=
  match trackID (SpotifyTrackURI s) with
  | Ok None => true
  | _ => false
  end.

Definition instant (s : Stream) : Z := unixNano (Ts s).

(** A directory given by its entries, in the order of [ioutil.ReadDir]. *)
Definition dirEnv (entries : list (string * content))
    (remote : nat → string → response) : Env :=
  {| os_Stat := λ name,
       if bool_decide (name ∈ entries.*1) then StatOk else StatNotExist;
     ioutil_ReadDir := Some entries.*1;
     ioutil_ReadFile := λ name,
       default ReadErr ((list_to_map entries : gmap string content) !! name);
     config_Token := true;
     client_GetTrack := remote;
     os_Create := true;
     File_Write := true;
     Time_MarshalJSON := sample_MarshalJSON;
     Time_UnmarshalJSON := sample_UnmarshalJSON |}.

(** Three parts of an export, the third one missing, and a file that is
    not part of it. *)
Definition gapDir : list (string * content) :=
  [("endsong_0.json", Bytes (docOf [stream 2 "spotify:track:AAA"]));
   ("endsong_1.json", Bytes (docOf [stream 1 "spotify:track:BBB"]));
   ("endsong_3.json", Bytes (docOf [stream 3 "spotify:track:AAA"]));
   ("notes.txt", ReadErr)].

(** An export whose second part is not JSON. *)
Definition badDir : list (string * content) :=
  [("endsong_0.json", Bytes (docOf [stream 2 "spotify:track:AAA"]));
   ("endsong_1.json", Bytes None);
   ("endsong_2.json", Bytes (docOf [stream 3 "spotify:track:AAA"]))].

(** An export in two parts, and a file that is not part of it. *)
Definition wholeDir : list (string * content) :=
  [("endsong_0.json", Bytes (docOf [stream 2 "spotify:track:AAA"]));
   ("endsong_1.json", Bytes (docOf [stream 1 "spotify:track:BBB"]));
   ("notes.txt", ReadErr)].

(** The environment of a whole run without credentials. *)
Definition noTokenEnv : Env :=
  {| os_Stat := os_Stat (runEnv twoTracks artwork_of true true);
     ioutil_ReadDir := ioutil_ReadDir (runEnv twoTracks artwork_of true true);
     ioutil_ReadFile := ioutil_ReadFile (runEnv twoTracks artwork_of true true);
     config_Token := false;
     client_GetTrack := artwork_of;
     os_Create := true;
     File_Write := true;
     Time_MarshalJSON := sample_MarshalJSON;
     Time_UnmarshalJSON := sample_UnmarshalJSON |}.

(** * Properties *)

(** Unfolds the operations of [M], to run a stage on a world. *)
Ltac unfold_M :=
  unfold log_Fatal, bind, ret, lift, Println, bar_Add, setFile, GetTrack in *.

(** ** strings.Split and the key extractor *)

Section Split.
Variable sep : ascii.

Lemma strings_Split_nonempty s : strings_Split s sep ≠ [].
Proof.
  destruct s as [|c s]; simpl; [done|].
  destruct (Ascii.eqb c sep); [done|].
  by destruct (strings_Split s sep).
Qed.

(** Joining the pieces with the separator gives the string back. *)
Lemma strings_Split_concat s :
  String.concat (String sep EmptyString) (strings_Split s sep) = s.
Proof.
  induction s as [|c s IH]; simpl; [done|].
  destruct (Ascii.eqb_spec c sep) as [->|Hne].
  - pose proof (strings_Split_nonempty s) as Hs.
    destruct (strings_Split s sep) as [|w ws] eqn:E; [done|].
    simpl in *. by rewrite IH.
  - destruct (strings_Split s sep) as [|w ws] eqn:E.
    + by destruct (strings_Split_nonempty s).
    + simpl in *. destruct ws; simpl in *; by rewrite <- IH.
Qed.

Lemma strings_Split_single s w : strings_Split s sep = [w] → s = w.
Proof.
  intros E. rewrite <- (strings_Split_concat s), E. done.
Qed.

Lemma strings_Split_free s : contains s sep = false → strings_Split s sep = [s].
Proof.
  induction s as [|c s IH]; simpl; [done|].
  intros [Hc Hs]%orb_false_iff. rewrite Hc, (IH Hs). done.
Qed.

Lemma strings_Split_piece w rest :
  contains w sep = false →
  strings_Split (w +:+ String sep rest) sep = w :: strings_Split rest sep.
Proof.
  induction w as [|c w IH]; simpl.
  - by rewrite Ascii.eqb_refl.
  - intros [Hc Hw]%orb_false_iff. rewrite Hc, (IH Hw). done.
Qed.
End Split.

(** The extractor by the number of pieces of the identifier. *)
Lemma trackID_cases uri :
  match strings_Split uri ":" with
  | [] => False
  | [ns] =>
      trackID uri = if String.eqb ns "spotify" then Panic "index out of range"
                    else Ok None
  | [ns; kind] => trackID uri = Ok None
  | ns :: kind :: id :: _ =>
      trackID uri = if String.eqb ns "spotify" && String.eqb kind "track"
                    then Ok (Some id) else Ok None
  end.
Proof.
  unfold trackID.
  pose proof (strings_Split_nonempty ":" uri) as Hne.
  destruct (strings_Split uri ":") as [|ns [|kind [|id rest]]]; [done|..];
    unfold index; simpl.
  - by destruct (String.eqb ns "spotify").
  - by destruct (String.eqb ns "spotify"), (String.eqb kind "track").
  - by destruct (String.eqb ns "spotify"), (String.eqb kind "track").
Qed.

(** A well-formed track identifier yields its id. *)
Lemma trackID_track_uri id :
  contains id ":" = false → trackID ("spotify:track:" +:+ id) = Ok (Some id).
Proof.
  intros Hid. pose proof (trackID_cases ("spotify:track:" +:+ id)) as H.
  change ("spotify:track:" +:+ id)
    with ("spotify" +:+ String ":" ("track" +:+ String ":" id)) in *.
  rewrite !strings_Split_piece, (strings_Split_free _ _ Hid) in H by done.
  exact H.
Qed.

(** Whatever follows a third separator is dropped: the id is the third
    piece. *)
Lemma trackID_third_piece id more :
  contains id ":" = false →
  trackID ("spotify:track:" +:+ id +:+ String ":" more) = Ok (Some id).
Proof.
  intros Hid.
  pose proof (trackID_cases ("spotify:track:" +:+ id +:+ String ":" more)) as H.
  change ("spotify:track:" +:+ id +:+ String ":" more)
    with ("spotify" +:+ String ":" ("track" +:+ String ":" (id +:+ String ":" more))) in *.
  rewrite !strings_Split_piece in H by done.
  pose proof (strings_Split_nonempty ":" more).
  destruct (strings_Split more ":"); done.
Qed.

(** The guard never ends the run by itself, and it panics on exactly one
    identifier. *)
Lemma trackID_panics_iff uri :
  (∃ msg, trackID uri = Panic msg) ↔ uri = "spotify".
Proof.
  split; [|intros ->; by eexists].
  intros [msg Hp]. pose proof (trackID_cases uri) as H.
  destruct (strings_Split uri ":") as [|ns [|kind [|id rest]]] eqn:E; [done|..].
  - apply strings_Split_single in E as ->.
    destruct (String.eqb_spec ns "spotify"); [done|congruence].
  - congruence.
  - destruct (_ && _); congruence.
Qed.

Lemma trackID_not_Fatal uri msg : trackID uri ≠ Fatal msg.
Proof.
  pose proof (trackID_cases uri) as H.
  destruct (strings_Split uri ":") as [|ns [|kind [|id rest]]]; [done|..];
    rewrite H; repeat case_match; done.
Qed.

Lemma trackID_not_Spin uri : trackID uri ≠ Spin.
Proof.
  pose proof (trackID_cases uri) as H.
  destruct (strings_Split uri ":") as [|ns [|kind [|id rest]]]; [done|..];
    rewrite H; repeat case_match; done.
Qed.

(** An identifier that is let through has at least three pieces, the first
    two being the namespace and the kind. *)
Lemma trackID_Some_inv uri id :
  trackID uri = Ok (Some id) →
  ∃ rest, strings_Split uri ":" = "spotify" :: "track" :: id :: rest.
Proof.
  intros Hk. pose proof (trackID_cases uri) as H.
  destruct (strings_Split uri ":") as [|ns [|kind [|id' rest]]]; [done|..].
  - destruct (String.eqb ns "spotify"); congruence.
  - congruence.
  - rewrite Hk in H.
    destruct (String.eqb_spec ns "spotify"), (String.eqb_spec kind "track");
      simpl in H; simplify_eq. by eexists.
Qed.

(** ** The chronological merger *)

Lemma lessTs_spec a b : lessTs a b = true ↔ unixNano (Ts a) < unixNano (Ts b).
Proof. unfold lessTs, Before. apply Z.ltb_lt. Qed.

Lemma insert_by_Permutation (x : Stream) l : insert_by lessTs x l ≡ₚ x :: l.
Proof.
  induction l as [|y ys IH]; simpl; [done|].
  destruct (lessTs y x); [|done].
  rewrite IH. apply Permutation_swap.
Qed.

Lemma insert_by_sorted x l :
  StronglySorted le_ts l → StronglySorted le_ts (insert_by lessTs x l).
Proof.
  induction 1 as [|y ys Hys IH Hy]; simpl.
  - repeat constructor.
  - destruct (lessTs y x) eqn:E.
    + constructor; [done|].
      rewrite insert_by_Permutation. constructor; [|done].
      apply lessTs_spec in E. unfold le_ts. lia.
    + assert (le_ts x y) as Hxy.
      { unfold le_ts. destruct (Z.lt_ge_cases (unixNano (Ts y)) (unixNano (Ts x)))
          as [Hlt%lessTs_spec|]; [congruence|done]. }
      constructor; [by constructor|].
      constructor; [done|].
      eapply Forall_impl; [exact Hy|]. unfold le_ts in *. intros; simpl in *. lia.
Qed.

(** Insertion moves the new record past records of a strictly earlier
    instant only, so the records of any one instant keep their order. *)
Lemma insert_by_filter x l (t : Z) :
  StronglySorted le_ts l →
  filter (λ s, unixNano (Ts s) = t) (insert_by lessTs x l)
  = filter (λ s, unixNano (Ts s) = t) (x :: l).
Proof.
  induction 1 as [|y ys Hys IH Hy]; simpl; [done|].
  destruct (lessTs y x) eqn:E; [|done].
  apply lessTs_spec in E.
  rewrite !filter_cons, IH, !filter_cons.
  repeat case_decide; try done; lia.
Qed.

Lemma StronglySorted_lookup_lt (l : list Stream) i j a b :
  StronglySorted le_ts l → l !! i = Some a → l !! j = Some b → (i < j)%nat →
  le_ts a b.
Proof.
  intros Hs. revert i j. induction Hs as [|x l Hl IH Hx]; intros i j Hi Hj Hij.
  - done.
  - destruct j as [|j]; [lia|]. destruct i as [|i]; simpl in *.
    + simplify_eq. by eapply Forall_lookup_1 in Hx.
    + apply (IH i j); [done..|lia].
Qed.

Lemma SliceStable_Permutation l : SliceStable lessTs l ≡ₚ l.
Proof.
  induction l as [|x l IH]; simpl; [done|].
  by rewrite insert_by_Permutation, IH.
Qed.

Lemma SliceStable_sorted l : StronglySorted le_ts (SliceStable lessTs l).
Proof.
  induction l as [|x l IH]; simpl; [constructor|by apply insert_by_sorted].
Qed.

Lemma SliceStable_filter l (t : Z) :
  filter (λ s, unixNano (Ts s) = t) (SliceStable lessTs l)
  = filter (λ s, unixNano (Ts s) = t) l.
Proof.
  induction l as [|x l IH]; simpl; [done|].
  rewrite insert_by_filter by apply SliceStable_sorted.
  by rewrite !filter_cons, IH.
Qed.

(** Two lists in the order of the instants that hold the same records of
    every instant, in the same order, are one list: the contract of a
    stable sort leaves no choice. *)
Lemma sorted_by_instant_unique l1 : ∀ l2,
  StronglySorted le_ts l1 → StronglySorted le_ts l2 →
  (∀ t : Z, filter (λ s, unixNano (Ts s) = t) l1
            = filter (λ s, unixNano (Ts s) = t) l2) →
  l1 = l2.
Proof.
  induction l1 as [|x l1 IH]; intros l2 H1 H2 Hf.
  - destruct l2 as [|y l2]; [done|].
    specialize (Hf (unixNano (Ts y))). rewrite filter_nil, filter_cons_True in Hf; done.
  - destruct l2 as [|y l2].
    { specialize (Hf (unixNano (Ts x))). rewrite filter_nil, filter_cons_True in Hf; done. }
    apply StronglySorted_cons in H1 as [Hx H1]. apply StronglySorted_cons in H2 as [Hy H2].
    assert (unixNano (Ts x) = unixNano (Ts y)) as Hxy.
    { apply Z.le_antisymm.
      - destruct (decide (unixNano (Ts x) = unixNano (Ts y))) as [->|Hne]; [done|].
        assert (y ∈ x :: l1) as Hin.
        { eapply (proj1 (list_elem_of_filter (λ s, unixNano (Ts s) = unixNano (Ts y)) _ _)).
          rewrite Hf, filter_cons_True by done. left. }
        apply elem_of_cons in Hin as [->|Hin]; [done|].
        rewrite Forall_forall in Hx. by apply Hx.
      - destruct (decide (unixNano (Ts x) = unixNano (Ts y))) as [->|Hne]; [done|].
        assert (x ∈ y :: l2) as Hin.
        { eapply (proj1 (list_elem_of_filter (λ s, unixNano (Ts s) = unixNano (Ts x)) _ _)).
          rewrite <- Hf, filter_cons_True by done. left. }
        apply elem_of_cons in Hin as [->|Hin]; [done|].
        rewrite Forall_forall in Hy. by apply Hy. }
    pose proof (Hf (unixNano (Ts x))) as Hh.
    rewrite !filter_cons_True in Hh by done. injection Hh as -> Hh.
    f_equal. apply IH; [done..|].
    intros t. specialize (Hf t). rewrite !filter_cons in Hf.
    case_decide; [by injection Hf|done].
Qed.

Lemma SliceStable_unique l l' :
  StronglySorted le_ts l' →
  (∀ t : Z, filter (λ s, unixNano (Ts s) = t) l'
            = filter (λ s, unixNano (Ts s) = t) l) →
  l' = SliceStable lessTs l.
Proof.
  intros Hs Hf. apply sorted_by_instant_unique; [done|apply SliceStable_sorted|].
  intros t. by rewrite SliceStable_filter.
Qed.

(** C2.  The sort of [main], [sort.SliceStable] under the order of
    [Ts.Before], returns a permutation of the records it is given, of the
    same length, in which no record comes before a record of an earlier
    instant, and in which the records of any one instant are in the order
    they had in the input. *)
Theorem merger_is_a_stable_sort (allStreams : list Stream) :
  let sorted := SliceStable lessTs allStreams in
  sorted ≡ₚ allStreams
  ∧ length sorted = length allStreams
  ∧ StronglySorted le_ts sorted
  ∧ (∀ i j a b, sorted !! i = Some a → sorted !! j = Some b → (i < j)%nat →
                Before (Ts b) (Ts a) = false)
  ∧ ∀ t : Z, filter (λ s, unixNano (Ts s) = t) sorted
             = filter (λ s, unixNano (Ts s) = t) allStreams.
Proof.
  intros sorted. subst sorted.
  split; [apply SliceStable_Permutation|].
  split; [by rewrite SliceStable_Permutation|].
  split; [apply SliceStable_sorted|].
  split; [|apply SliceStable_filter].
  intros i j a b Hi Hj Hij.
  pose proof (SliceStable_sorted allStreams) as Hs.
  pose proof (StronglySorted_lookup_lt _ i j a b Hs Hi Hj Hij) as Hab.
  unfold Before, le_ts in *. apply Z.ltb_ge. done.
Qed.

(** ** The enrichment loop *)

(** Every turn of the loop is one of the six cases of [turn]. *)
Lemma enrich_turn env logs m s w :
  turn env logs m s w (enrich env logs m s w).1 (enrich env logs m s w).2.
Proof.
  unfold enrich, bind, lift.
  destruct (trackID (SpotifyTrackURI s)) as [[id|]|msg|msg|] eqn:Hk; simpl.
  - destruct (m !! id) as [a|] eqn:Hm; simpl.
    + by eapply turn_hit.
    + destruct (client_GetTrack env (length (calls w)) id) as [|[|a imgs]] eqn:Hr; simpl.
      * by eapply turn_fetch_error.
      * by eapply turn_no_image.
      * by eapply turn_miss.
  - destruct logs; simpl; by apply turn_skip.
  - by destruct (trackID_not_Fatal _ _ Hk).
  - by apply turn_panic.
  - by destruct (trackID_not_Spin _ Hk).
Qed.

(** The loop with its index and its updates in place computes
    [enrichAll]: entered at index [length pre] with [length suf] turns left,
    it leaves [pre] as it is and enriches [suf]. *)
Lemma artworks_loop_enrichAll env logs suf : ∀ pre m w,
  artworks_loop env logs (length suf) (length pre) (pre ++ suf) m w
  = match enrichAll env logs suf m w with
    | (w', r) => (w', res_bind r (λ '(out, m'), Ok ((pre ++ out)%list, m')))
    end.
Proof.
  induction suf as [|s suf IH]; intros pre m w.
  - simpl. rewrite lookup_ge_None_2 by (rewrite length_app; simpl; lia). done.
  - cbn [artworks_loop length enrichAll]. rewrite list_lookup_middle by done.
    unfold bind.
    destruct (enrich env logs m s w) as [w1 [[m1 s']|msg|msg|]]; try done.
    replace (<[length pre:=s']> (pre ++ s :: suf)) with ((pre ++ [s']) ++ suf).
    2:{ rewrite insert_app_r_alt, Nat.sub_diag by done. by rewrite <- app_assoc. }
    replace (S (length pre)) with (length (pre ++ [s'])) by (rewrite length_app; simpl; lia).
    rewrite IH.
    destruct (enrichAll env logs suf m1 w1) as [w2 [[out m2]|msg|msg|]]; simpl; try done.
    by rewrite <- app_assoc.
Qed.

(** The invariant of the loop, by induction on the records and by cases on
    the turn of the first one. *)
Lemma enrichAll_spec env logs l : ∀ m w w' r,
  enrichAll env logs l m w = (w', r) → ∃ cs, loop_post env l m w w' r cs.
Proof.
  induction l as [|s l IH]; intros m w w' r Hrun.
  - simpl in Hrun. injection Hrun as <- <-. exists [].
    unfold loop_post. rewrite app_nil_r. repeat split; try done.
    set_solver.
  - cbn [enrichAll] in Hrun. unfold bind in Hrun.
    pose proof (enrich_turn env logs m s w) as Ht.
    destruct (enrich env logs m s w) as [w1 r1]. simpl in Ht.
    destruct Ht as [w1 Hk Hc Hf | msg Hk | id a w1 Hk Hm Hc Hf
                   | id a imgs w1 Hk Hm Hr Hc Hf | id w1 Hk Hm Hr Hc Hf
                   | id w1 Hk Hm Hr Hc Hf].
    + (* the record is skipped *)
      destruct (enrichAll env logs l m w1) as [w2 r2] eqn:E2.
      apply IH in E2 as (cs & Hcs & Hfs & Hpre & Herr & Hspin & Hok).
      exists cs. unfold loop_post. cbn [trackIDs]. rewrite Hk, <- Hc, <- Hf.
      destruct r2 as [[out m']|msg|msg|]; simpl in Hrun; injection Hrun as <- <-.
      all: do 3 (split; [done|]).
      all: split; [first [exact Herr | intros n id' Hl He; by destruct (Herr n id' Hl He)]|].
      all: split; [done|]; try done.
      destruct Hok as (-> & Hsub & Hdom & HF & Hval).
      do 3 (split; [done|]). split; [|done].
      constructor; [|done]. unfold enriched. by rewrite Hk.
    + (* the guard panics *)
      injection Hrun as <- <-. exists []. unfold loop_post.
      rewrite app_nil_r. repeat split; try done.
      apply prefix_nil.
    + (* the id is in the map *)
      destruct (enrichAll env logs l m w1) as [w2 r2] eqn:E2.
      apply IH in E2 as (cs & Hcs & Hfs & Hpre & Herr & Hspin & Hok).
      exists cs. unfold loop_post. cbn [trackIDs]. rewrite Hk, <- Hc, <- Hf. cbn [firsts].
      rewrite decide_True by (apply elem_of_dom; eauto).
      destruct r2 as [[out m']|msg|msg|]; simpl in Hrun; injection Hrun as <- <-.
      all: do 3 (split; [done|]).
      all: split; [first [exact Herr | intros n id' Hl He; by destruct (Herr n id' Hl He)]|].
      all: split; [done|]; try done.
      destruct Hok as (-> & Hsub & Hdom & HF & Hval).
      do 3 (split; [done|]). split; [|done].
      constructor; [|done]. unfold enriched. rewrite Hk. exists a. split; [|done].
      by eapply lookup_weaken.
    + (* the id is fetched *)
      destruct (enrichAll env logs l (<[id:=a]> m) w1) as [w2 r2] eqn:E2.
      apply IH in E2 as (cs & Hcs & Hfs & Hpre & Herr & Hspin & Hok).
      exists (id :: cs). unfold loop_post. cbn [trackIDs]. rewrite Hk. cbn [firsts].
      rewrite decide_False by (by apply not_elem_of_dom).
      rewrite dom_insert_L in *. rewrite Hc, length_app in *. simpl in *.
      assert (∀ n, length (calls w) + S n = length (calls w) + 1 + n)%nat as Hn by lia.
      destruct r2 as [[out m']|msg|msg|]; simpl in Hrun; injection Hrun as <- <-.
      all: split; [by rewrite Hcs, <- app_assoc|].
      all: split; [congruence|].
      all: split; [by apply prefix_cons|].
      all: split; [intros [|n] id' Hl He; simpl in *;
                   [simplify_eq; rewrite Nat.add_0_r in He; congruence
                   |rewrite Hn in He; destruct (Herr n id' Hl He) as [? ->]; done]|].
      all: split; [done|]; try done.
      destruct Hok as (-> & Hsub & Hdom & HF & Hval).
      assert (m' !! id = Some a) as Hid.
      { eapply lookup_weaken; [|exact Hsub]. apply lookup_insert_eq. }
      split; [done|]. split.
      { etrans; [|exact Hsub]. by apply insert_subseteq. }
      split; [set_solver|]. split.
      { constructor; [|done]. unfold enriched. rewrite Hk. eauto. }
      intros [|n] id' Hl; simpl in *.
      * simplify_eq. rewrite Nat.add_0_r. eauto.
      * rewrite Hn. eauto.
    + (* the call fails *)
      injection Hrun as <- <-. exists [id]. unfold loop_post.
      cbn [trackIDs]. rewrite Hk. cbn [firsts].
      rewrite decide_False by (by apply not_elem_of_dom).
      do 2 (split; [done|]). split; [apply prefix_cons, prefix_nil|].
      split; [|done].
      intros [|n] id' Hl He; simpl in *; done.
    + (* the track has no image *)
      injection Hrun as <- <-. exists [id]. unfold loop_post.
      cbn [trackIDs]. rewrite Hk. cbn [firsts].
      rewrite decide_False by (by apply not_elem_of_dom).
      do 2 (split; [done|]). split; [apply prefix_cons, prefix_nil|].
      split; [|done].
      intros [|n] id' Hl He; simpl in *; [|done].
      simplify_eq. rewrite Nat.add_0_r in He. congruence.
Qed.

(** ** First occurrences *)

Lemma firsts_elem_of ids : ∀ seen id,
  id ∈ firsts seen ids ↔ id ∈ ids ∧ id ∉ seen.
Proof.
  induction ids as [|x ids IH]; intros seen id; simpl.
  - rewrite elem_of_nil. tauto.
  - case_decide as Hx.
    + rewrite IH, elem_of_cons. naive_solver.
    + rewrite !elem_of_cons, IH, not_elem_of_union, not_elem_of_singleton.
      destruct (decide (id = x)); naive_solver.
Qed.

Lemma firsts_NoDup ids : ∀ seen, NoDup (firsts seen ids).
Proof.
  induction ids as [|x ids IH]; intros seen; simpl; [constructor|].
  case_decide; [done|]. constructor; [|done].
  rewrite firsts_elem_of, not_elem_of_union, not_elem_of_singleton. naive_solver.
Qed.

Lemma firsts_length ids :
  length (firsts ∅ ids) = size (list_to_set ids : gset string).
Proof.
  rewrite <- (size_list_to_set (C := gset string) (firsts ∅ ids))
    by apply firsts_NoDup.
  f_equal. apply set_eq. intros id.
  rewrite !elem_of_list_to_set, firsts_elem_of.
  pose proof (not_elem_of_empty (C := gset string) id). tauto.
Qed.

Lemma prefix_of_firsts cs seen ids :
  cs `prefix_of` firsts seen ids →
  NoDup cs ∧ (∀ id, id ∈ cs → id ∈ ids ∧ id ∉ seen)
  ∧ (length cs ≤ length (firsts seen ids))%nat.
Proof.
  intros [rest Hrest]. pose proof (firsts_NoDup ids seen) as Hnd.
  rewrite Hrest in Hnd. apply NoDup_app in Hnd as (Hnd & _ & _).
  split; [done|]. split.
  - intros id Hid. apply firsts_elem_of. rewrite Hrest, elem_of_app. by left.
  - rewrite Hrest, length_app. lia.
Qed.

(** ** The loaders leave the call log and the output file alone *)

Lemma readFile_frame env fileName allStreams w w' r :
  readFile env fileName allStreams w = (w', r) →
  calls w' = calls w ∧ sorted_streams w' = sorted_streams w ∧ r ≠ Spin.
Proof.
  unfold readFile; unfold_M.
  repeat case_match; intros; simplify_eq; done.
Qed.

Lemma Numbered_loop_frame env fuel : ∀ fileIndex allStreams w w' r,
  Numbered.loop env fuel fileIndex allStreams w = (w', r) →
  calls w' = calls w ∧ sorted_streams w' = sorted_streams w.
Proof.
  induction fuel as [|fuel IH]; intros fileIndex allStreams w w' r; simpl.
  - unfold lift. by intros [= <- <-].
  - destruct (os_Stat env _).
    + unfold bind. destruct (readFile env _ allStreams w) as [w1 r1] eqn:E.
      apply readFile_frame in E as (Hc & Hf & _).
      destruct r1; intros Hrun; simplify_eq; try done.
      apply IH in Hrun as [-> ->]. done.
    + destruct (fileIndex =? 0)%nat; unfold log_Fatal, lift, ret; by intros [= <- <-].
    + unfold log_Fatal, lift; by intros [= <- <-].
Qed.

Lemma Scanned_loop_frame env files : ∀ allStreams w w' r,
  Scanned.loop env files allStreams w = (w', r) →
  calls w' = calls w ∧ sorted_streams w' = sorted_streams w ∧ r ≠ Spin.
Proof.
  induction files as [|f files IH]; intros allStreams w w' r; simpl.
  - unfold ret. by intros [= <- <-].
  - destruct (negb (HasSuffix f ".json")); [apply IH|].
    destruct (_ || _); [|apply IH].
    unfold bind. destruct (readFile env _ allStreams w) as [w1 r1] eqn:E.
    apply readFile_frame in E as (Hc & Hf & Hs).
    destruct r1; intros Hrun; simplify_eq; try done.
    apply IH in Hrun as (-> & -> & ?). done.
Qed.

Lemma readEndsongFiles_frame v env w w' r :
  readEndsongFiles v env w = (w', r) →
  calls w' = calls w ∧ sorted_streams w' = sorted_streams w.
Proof.
  destruct v as [fuel|]; simpl.
  - apply Numbered_loop_frame.
  - unfold Scanned.readEndsongFiles. destruct (ioutil_ReadDir env).
    + intros H. by apply Scanned_loop_frame in H as (? & ? & _).
    + unfold log_Fatal, lift. by intros [= <- <-].
Qed.

(** ** The enrichment stage as a whole *)

Lemma addStreamArtworks_spec env logs allStreams w w' r :
  addStreamArtworks env logs allStreams w = (w', r) →
  (config_Token env = false ∧ w' = w ∧ r = Fatal "couldn't get token: ")
  ∨ (config_Token env = true ∧
     ∃ w1 r1 cs,
       artworks_loop env logs (length allStreams) 0 allStreams ∅ w = (w1, r1)
       ∧ loop_post env allStreams ∅ w w1 r1 cs
       ∧ calls w' = calls w1 ∧ sorted_streams w' = sorted_streams w1
       ∧ r = res_bind r1 (λ '(out, _), Ok out)).
Proof.
  unfold addStreamArtworks. destruct (config_Token env); simpl.
  2:{ unfold log_Fatal, lift. intros [= <- <-]. by left. }
  intros Hrun. right. split; [done|].
  unfold bind in Hrun.
  pose proof (artworks_loop_enrichAll env logs allStreams [] ∅ w) as Hl.
  simpl in Hl. rewrite Hl in *. clear Hl.
  destruct (enrichAll env logs allStreams ∅ w) as [w1 r1] eqn:E.
  apply enrichAll_spec in E as [cs Hpost].
  exists w1, (res_bind r1 (λ '(out, m'), Ok (out, m'))), cs.
  assert (res_bind r1 (λ '(out, m'), Ok (out, m')) = r1) as -> by by destruct r1 as [[]| | |].
  split; [done|]. split; [done|].
  destruct r1 as [[out m']|msg|msg|]; unfold ret in Hrun; simpl in Hrun; simplify_eq; done.
Qed.

(** ** Single flight *)

(** One turn either finds the id in the map and calls nothing, or calls the
    remote once and binds the id to the first image of the answer. *)
Lemma enrich_calls env logs m s w id :
  trackID (SpotifyTrackURI s) = Ok (Some id) →
  let '(w1, r1) := enrich env logs m s w in
  match m !! id with
  | Some a => calls w1 = calls w ∧ r1 = Ok (m, setArtworkURL s (Some a))
  | None =>
      calls w1 = calls w ++ [id]
      ∧ ∀ m1 s1, r1 = Ok (m1, s1) →
          ∃ a imgs, client_GetTrack env (length (calls w)) id = Track (a :: imgs)
                    ∧ m1 = <[id := a]> m ∧ s1 = setArtworkURL s (Some a)
  end.
Proof.
  intros Hk. unfold enrich, bind, lift. rewrite Hk. simpl.
  destruct (m !! id) as [a|]; simpl; [done|].
  destruct (client_GetTrack env (length (calls w)) id) as [|[|a imgs]]; simpl;
    (split; [done|]); intros m1 s1 [=]; subst; eauto.
Qed.

(** A turn never unbinds or rebinds an id. *)
Lemma enrich_mono env logs m s w w1 m1 s1 :
  enrich env logs m s w = (w1, Ok (m1, s1)) → m ⊆ m1.
Proof.
  intros E. pose proof (enrich_turn env logs m s w) as Ht. rewrite E in Ht.
  simpl in Ht. inversion Ht; subst; [done|done|by apply insert_subseteq].
Qed.

(** A run over [pre ++ suf] is the run over [pre], followed, when that one
    completes, by the run over [suf] from the map and the world it left:
    the turns a run gets through before it is ended are a completed run
    over the records it got through. *)
Lemma enrichAll_app_eq env logs pre : ∀ suf m w,
  enrichAll env logs (pre ++ suf) m w
  = match enrichAll env logs pre m w with
    | (wp, Ok (outp, mp)) =>
        match enrichAll env logs suf mp wp with
        | (w', r) => (w', res_bind r (λ '(outs, m'), Ok (outp ++ outs, m')))
        end
    | (wp, Fatal msg) => (wp, Fatal msg)
    | (wp, Panic msg) => (wp, Panic msg)
    | (wp, Spin) => (wp, Spin)
    end.
Proof.
  induction pre as [|s pre IH]; intros suf m w.
  - simpl. unfold ret.
    by destruct (enrichAll env logs suf m w) as [w' [[outs m']| | |]].
  - cbn [app enrichAll]. unfold bind.
    destruct (enrich env logs m s w) as [w1 [[m1 s1]| | |]]; try done.
    rewrite IH.
    destruct (enrichAll env logs pre m1 w1) as [wp [[outp mp]| | |]]; try done.
    unfold ret.
    by destruct (enrichAll env logs suf mp wp) as [w' [[outs m']| | |]].
Qed.

Lemma enrichAll_app env logs pre suf m w w' out m' :
  enrichAll env logs (pre ++ suf) m w = (w', Ok (out, m')) →
  ∃ wp outp mp outs,
    enrichAll env logs pre m w = (wp, Ok (outp, mp))
    ∧ enrichAll env logs suf mp wp = (w', Ok (outs, m'))
    ∧ out = outp ++ outs.
Proof.
  rewrite enrichAll_app_eq.
  destruct (enrichAll env logs pre m w) as [wp [[outp mp]| | |]]; try done.
  destruct (enrichAll env logs suf mp wp) as [w2 [[outs m2]| | |]] eqn:E; simpl;
    try done.
  intros Hrun. simplify_eq. by exists wp, outp, mp, outs.
Qed.

Lemma artworks_loop_whole env logs allStreams w :
  artworks_loop env logs (length allStreams) 0 allStreams ∅ w
  = enrichAll env logs allStreams ∅ w.
Proof.
  pose proof (artworks_loop_enrichAll env logs allStreams [] ∅ w) as H.
  simpl in H. rewrite H.
  by destruct (enrichAll env logs allStreams ∅ w) as [w1 [[]| | |]].
Qed.

Lemma enriched_lookup m l out :
  Forall2 (enriched m) l out →
  ∀ i s id, l !! i = Some s → trackID (SpotifyTrackURI s) = Ok (Some id) →
  ∃ a, m !! id = Some a ∧ out !! i = Some (setArtworkURL s (Some a)).
Proof.
  intros HF i s id Hi Hk.
  destruct (Forall2_lookup_l _ _ _ _ _ HF Hi) as (s' & Ho & He).
  unfold enriched in He. rewrite Hk in He. destruct He as (a & Ha & ->). eauto.
Qed.

Lemma artworks_loop_prefix env logs n : ∀ i allStreams m w w' out m',
  artworks_loop env logs n i allStreams m w = (w', Ok (out, m')) →
  length out = length allStreams ∧ take i out = take i allStreams.
Proof.
  induction n as [|n IH]; intros i allStreams m w w' out m'; simpl.
  - destruct (allStreams !! i); [done|]. unfold ret. by intros [= <- <- <-].
  - destruct (allStreams !! i) as [s|]; [|unfold ret; by intros [= <- <- <-]].
    unfold bind. destruct (enrich env logs m s w) as [w1 [[m1 s1]| | |]]; try done.
    intros (Hlen & Htake)%IH. rewrite length_insert in Hlen. split; [done|].
    apply (f_equal (take i)) in Htake.
    rewrite !take_take, Nat.min_l in Htake by lia.
    by rewrite take_insert_ge in Htake by lia.
Qed.

Lemma writeSortedFile_calls env allStreams w w' r :
  writeSortedFile env allStreams w = (w', r) → calls w' = calls w.
Proof.
  unfold writeSortedFile, Encode, Write, Create; unfold_M.
  repeat case_match; intros; simplify_eq; done.
Qed.

(** ** Fuel *)

Lemma Numbered_loop_enough_fuel env k :
  os_Stat env ("endsong_" +:+ pretty k +:+ ".json") ≠ StatOk →
  ∀ fuel fileIndex allStreams w,
    (fileIndex ≤ k < fileIndex + fuel)%nat →
    (Numbered.loop env fuel fileIndex allStreams w).2 ≠ Spin.
Proof.
  intros Hk. induction fuel as [|fuel IH]; intros i allStreams w Hi; [lia|].
  simpl. destruct (os_Stat env ("endsong_" +:+ pretty i +:+ ".json")) eqn:Hs.
  - assert (i ≠ k) by (intros ->; congruence).
    unfold bind. destruct (readFile env _ allStreams w) as [w1 r1] eqn:E.
    apply readFile_frame in E as (_ & _ & Hns).
    destruct r1; simpl; try done. apply IH. lia.
  - by destruct (i =? 0)%nat.
  - done.
Qed.

Lemma addStreamArtworks_not_Spin env logs allStreams w :
  (addStreamArtworks env logs allStreams w).2 ≠ Spin.
Proof.
  destruct (addStreamArtworks env logs allStreams w) as [w' r] eqn:E.
  apply addStreamArtworks_spec in E
    as [(_ & _ & ->)|(_ & w1 & r1 & cs & _ & Hpost & _ & _ & ->)]; [done|].
  destruct Hpost as (_ & _ & _ & _ & Hns & _). by destruct r1 as [[]| | |].
Qed.

Lemma writeSortedFile_not_Spin env allStreams w :
  (writeSortedFile env allStreams w).2 ≠ Spin.
Proof.
  unfold writeSortedFile, Encode, Write, Create; unfold_M.
  by repeat case_match.
Qed.

(** A run spins only if its reading loop does: the other loop of the model
    has the fuel it needs. *)
Lemma main_not_Spin v env w :
  (readEndsongFiles v env w).2 ≠ Spin → (main v env w).2 ≠ Spin.
Proof.
  unfold main, main_with, bind.
  destruct (readEndsongFiles v env w) as [w0 [allStreams| | |]]; simpl; try done.
  intros _. destruct (length allStreams =? 0)%nat; [done|].
  unfold bind.
  pose proof (addStreamArtworks_not_Spin env (logsSkipped v)
                (SliceStable lessTs allStreams)
                {| output := output w0 ++ [StreamsTotal (length allStreams)];
                   calls := calls w0; bar := bar w0;
                   sorted_streams := sorted_streams w0 |}) as Ha.
  destruct (addStreamArtworks _ _ _ _) as [w2 [out| | |]]; simpl in *; try done.
  apply writeSortedFile_not_Spin.
Qed.

Lemma main_scanned_not_Spin env w : (main scanned env w).2 ≠ Spin.
Proof.
  apply main_not_Spin. simpl. unfold Scanned.readEndsongFiles.
  destruct (ioutil_ReadDir env) as [files|]; [|done].
  destruct (Scanned.loop env files [] w) as [w' r] eqn:E.
  by apply Scanned_loop_frame in E as (_ & _ & ?).
Qed.

(** C1 (as amended).  In every run of the enrichment stage, completed or
    not, no track id is fetched twice and every fetched id is the id of a
    record that the guard lets through, so the calls never outnumber the
    distinct ids; when the stage completes, the calls are exactly the
    distinct ids of those records, in the order of their first occurrence.
    In a turn, an id that is in the map costs no call; an id that is not
    costs one call, and when the turn completes the id is bound to the first
    image of the answer. *)
Theorem single_flight_law env logs allStreams w w' r :
  addStreamArtworks env logs allStreams w = (w', r) →
  ∃ cs,
    calls w' = calls w ++ cs
    ∧ NoDup cs
    ∧ (∀ id, id ∈ cs → id ∈ trackIDs allStreams)
    ∧ (length cs ≤ size (list_to_set (trackIDs allStreams) : gset string))%nat
    ∧ (∀ out, r = Ok out →
         cs = firsts ∅ (trackIDs allStreams)
         ∧ length cs = size (list_to_set (trackIDs allStreams) : gset string))
    ∧ (∀ m s w0 id,
         trackID (SpotifyTrackURI s) = Ok (Some id) →
         let '(w1, r1) := enrich env logs m s w0 in
         match m !! id with
         | Some a => calls w1 = calls w0 ∧ r1 = Ok (m, setArtworkURL s (Some a))
         | None =>
             calls w1 = calls w0 ++ [id]
             ∧ ∀ m1 s1, r1 = Ok (m1, s1) →
                 ∃ a imgs,
                   client_GetTrack env (length (calls w0)) id = Track (a :: imgs)
                   ∧ m1 = <[id := a]> m ∧ s1 = setArtworkURL s (Some a)
         end).
Proof.
  intros Hrun.
  apply addStreamArtworks_spec in Hrun
    as [(_ & -> & ->)|(_ & w1 & r1 & cs & _ & Hpost & Hc & _ & ->)].
  - exists []. rewrite app_nil_r. split; [done|]. split; [constructor|].
    split; [by intros id ?%elem_of_nil|]. split; [simpl; lia|].
    split; [done|]. intros. by apply enrich_calls.
  - destruct Hpost as (Hcs & _ & Hpre & _ & _ & Hok).
    rewrite dom_empty_L in *.
    apply prefix_of_firsts in Hpre as (Hnd & Hin & Hlen).
    rewrite firsts_length in Hlen.
    exists cs. split; [congruence|]. split; [done|].
    split; [intros id Hid; by apply Hin|]. split; [done|]. split.
    + intros out Hr. destruct r1 as [[out' m']| | |]; simplify_eq.
      destruct Hok as (-> & _). split; [done|]. apply firsts_length.
    + intros. by apply enrich_calls.
Qed.

(** The claim as the specification words it, for every run, fails on a run
    that a failed call ends: two distinct track ids, one call. *)
Lemma single_flight_fails_when_a_fetch_aborts :
  let '(w', r) := addStreamArtworks deadEnv true twoTracks world0 in
  r = Fatal "Error when getting Spotify track: "
  ∧ calls w' = ["AAA"]
  ∧ size (list_to_set (trackIDs twoTracks) : gset string) = 2%nat
  ∧ length (calls w') ≠ size (list_to_set (trackIDs twoTracks) : gset string).
Proof. vm_compute. repeat split; done. Qed.

Lemma single_flight_witness :
  addStreamArtworks liveEnv true sortedB world0
  = ({| output := [SkippedStream (stream 3 "spotify:episode:BBB"); ArtworksTotal 1];
        calls := ["AAA"]; bar := 2; sorted_streams := NoFile |}, Ok enrichedB)
  ∧ ∃ cs,
      ["AAA"] = calls world0 ++ cs
      ∧ NoDup cs
      ∧ (∀ id, id ∈ cs → id ∈ trackIDs sortedB)
      ∧ (length cs ≤ size (list_to_set (trackIDs sortedB) : gset string))%nat
      ∧ (∀ out, Ok enrichedB = Ok out →
           cs = firsts ∅ (trackIDs sortedB)
           ∧ length cs = size (list_to_set (trackIDs sortedB) : gset string))
      ∧ (∀ m s w0 id,
           trackID (SpotifyTrackURI s) = Ok (Some id) →
           let '(w1, r1) := enrich liveEnv true m s w0 in
           match m !! id with
           | Some a => calls w1 = calls w0 ∧ r1 = Ok (m, setArtworkURL s (Some a))
           | None =>
               calls w1 = calls w0 ++ [id]
               ∧ ∀ m1 s1, r1 = Ok (m1, s1) →
                   ∃ a imgs,
                     client_GetTrack liveEnv (length (calls w0)) id = Track (a :: imgs)
                     ∧ m1 = <[id := a]> m ∧ s1 = setArtworkURL s (Some a)
           end).
Proof.
  assert (addStreamArtworks liveEnv true sortedB world0
          = ({| output := [SkippedStream (stream 3 "spotify:episode:BBB"); ArtworksTotal 1];
                calls := ["AAA"]; bar := 2; sorted_streams := NoFile |}, Ok enrichedB))
    as Hrun by (vm_compute; reflexivity).
  split; [exact Hrun|].
  exact (single_flight_law liveEnv true sortedB world0 _ _ Hrun).
Defined.

(** ** First occurrence wins *)

(** C9.  When the loop completes, every record that the guard lets through
    holds the reference that the final map binds to its id, so two records
    of one id hold the same reference; the map after any number of turns is
    included in the final map, a turn never unbinding or rebinding an id;
    the reference of an id is the first image of the answer to the call
    that the turn of the first record of that id issues; and the calls are
    the distinct ids in the order of their first occurrence, whatever the
    remote answers. *)
Theorem cache_first_occurrence_wins env logs allStreams w w' out artworkByID :
  artworks_loop env logs (length allStreams) 0 allStreams ∅ w
    = (w', Ok (out, artworkByID)) →
  (∀ i s id,
     allStreams !! i = Some s → trackID (SpotifyTrackURI s) = Ok (Some id) →
     ∃ a, artworkByID !! id = Some a
          ∧ out !! i = Some (setArtworkURL s (Some a)))
  ∧ (∀ i j s s' o o' id,
       allStreams !! i = Some s → allStreams !! j = Some s' →
       trackID (SpotifyTrackURI s) = Ok (Some id) →
       trackID (SpotifyTrackURI s') = Ok (Some id) →
       out !! i = Some o → out !! j = Some o' →
       ArtworkURL o = ArtworkURL o')
  ∧ (∀ pre suf, allStreams = pre ++ suf →
       ∃ wp outp mp,
         artworks_loop env logs (length pre) 0 pre ∅ w = (wp, Ok (outp, mp))
         ∧ mp ⊆ artworkByID
         ∧ ∀ s rest id,
             suf = s :: rest → trackID (SpotifyTrackURI s) = Ok (Some id) →
             id ∉ trackIDs pre →
             mp !! id = None
             ∧ ∃ a imgs,
                 client_GetTrack env (length (calls wp)) id = Track (a :: imgs)
                 ∧ artworkByID !! id = Some a)
  ∧ (∀ m s w0 w1 m1 s1, enrich env logs m s w0 = (w1, Ok (m1, s1)) → m ⊆ m1)
  ∧ calls w' = calls w ++ firsts ∅ (trackIDs allStreams).
Proof.
  rewrite artworks_loop_whole. intros Hrun.
  pose proof Hrun as Hpost. apply enrichAll_spec in Hpost as [cs Hpost].
  destruct Hpost as (Hcs & _ & _ & _ & _ & -> & _ & _ & HF & _).
  rewrite dom_empty_L in *.
  split; [by apply enriched_lookup|]. split.
  { intros i j s s' o o' id Hi Hj Hk Hk' Ho Ho'.
    destruct (enriched_lookup _ _ _ HF i s id Hi Hk) as (a & Ha & Hoi).
    destruct (enriched_lookup _ _ _ HF j s' id Hj Hk') as (a' & Ha' & Hoj).
    by simplify_eq. }
  split; [|split; [apply enrich_mono|done]].
  intros pre suf ->.
  apply enrichAll_app in Hrun as (wp & outp & mp & outs & Hp & Hs & ->).
  exists wp, outp, mp. rewrite artworks_loop_whole. split; [done|].
  pose proof Hp as Hpp. apply enrichAll_spec in Hpp as [cp Hpp].
  destruct Hpp as (_ & _ & _ & _ & _ & -> & _ & Hdom & _).
  pose proof Hs as Hss. apply enrichAll_spec in Hss as [cs' Hss].
  destruct Hss as (_ & _ & _ & _ & _ & _ & Hsub & _).
  split; [done|].
  intros s rest id -> Hk Hfresh.
  assert (mp !! id = None) as Hnone.
  { apply not_elem_of_dom. rewrite Hdom, dom_empty_L, (left_id_L ∅ (∪)).
    rewrite elem_of_list_to_set, firsts_elem_of. by intros [? _]. }
  split; [done|].
  cbn [enrichAll] in Hs. unfold bind in Hs.
  pose proof (enrich_calls env logs mp s wp id Hk) as Hc.
  destruct (enrich env logs mp s wp) as [w1 [[m1 s1]| | |]]; try done.
  rewrite Hnone in Hc. destruct Hc as [_ Hc].
  destruct (Hc _ _ eq_refl) as (a & imgs & Hr & -> & ->).
  exists a, imgs. split; [done|].
  destruct (enrichAll env logs rest (<[id:=a]> mp) w1) as [w2 [[o2 m2]| | |]] eqn:E2;
    try done.
  unfold ret in Hs. simplify_eq.
  apply enrichAll_spec in E2 as [c2 H2].
  destruct H2 as (_ & _ & _ & _ & _ & _ & Hsub2 & _).
  eapply lookup_weaken; [|exact Hsub2]. apply lookup_insert_eq.
Qed.

Lemma cache_first_occurrence_witness :
  artworks_loop driftEnv true (length threePlays) 0 threePlays ∅ world0
  = (threePlaysWorld, Ok (threePlaysOut, threePlaysMap))
  ∧ (∀ i s id,
       threePlays !! i = Some s → trackID (SpotifyTrackURI s) = Ok (Some id) →
       ∃ a, threePlaysMap !! id = Some a
            ∧ threePlaysOut !! i = Some (setArtworkURL s (Some a)))
  ∧ (∀ i j s s' o o' id,
       threePlays !! i = Some s → threePlays !! j = Some s' →
       trackID (SpotifyTrackURI s) = Ok (Some id) →
       trackID (SpotifyTrackURI s') = Ok (Some id) →
       threePlaysOut !! i = Some o → threePlaysOut !! j = Some o' →
       ArtworkURL o = ArtworkURL o')
  ∧ (∀ pre suf, threePlays = pre ++ suf →
       ∃ wp outp mp,
         artworks_loop driftEnv true (length pre) 0 pre ∅ world0 = (wp, Ok (outp, mp))
         ∧ mp ⊆ threePlaysMap
         ∧ ∀ s rest id,
             suf = s :: rest → trackID (SpotifyTrackURI s) = Ok (Some id) →
             id ∉ trackIDs pre →
             mp !! id = None
             ∧ ∃ a imgs,
                 client_GetTrack driftEnv (length (calls wp)) id = Track (a :: imgs)
                 ∧ threePlaysMap !! id = Some a)
  ∧ (∀ m s w0 w1 m1 s1, enrich driftEnv true m s w0 = (w1, Ok (m1, s1)) → m ⊆ m1)
  ∧ calls threePlaysWorld = calls world0 ++ firsts ∅ (trackIDs threePlays).
Proof.
  assert (artworks_loop driftEnv true (length threePlays) 0 threePlays ∅ world0
          = (threePlaysWorld, Ok (threePlaysOut, threePlaysMap)))
    as Hrun by (vm_compute; reflexivity).
  split; [exact Hrun|].
  exact (cache_first_occurrence_wins driftEnv true threePlays world0 _ _ _ Hrun).
Defined.

(** ** The frame of the enrichment *)

(** C10.  When the stage completes it returns as many records as it was
    given, in the same places; each differs from the record it was given
    in the artwork field at most; a record that the guard skips is returned
    as it was, and a record it lets through holds an artwork.  Turn [i] and
    the turns after it leave the records before [i] as they are, so a
    record is assigned in one turn at most. *)
Theorem enrichment_frame env logs allStreams w w' out :
  addStreamArtworks env logs allStreams w = (w', Ok out) →
  length out = length allStreams
  ∧ (∀ i s, allStreams !! i = Some s →
       ∃ s', out !! i = Some s'
             ∧ s' = setArtworkURL s (ArtworkURL s')
             ∧ (trackID (SpotifyTrackURI s) = Ok None → s' = s)
             ∧ (∀ id, trackID (SpotifyTrackURI s) = Ok (Some id) →
                  is_Some (ArtworkURL s')))
  ∧ (∀ n i xs m w0 w1 out1 m1,
       artworks_loop env logs n i xs m w0 = (w1, Ok (out1, m1)) →
       length out1 = length xs ∧ take i out1 = take i xs).
Proof.
  intros Hrun.
  apply addStreamArtworks_spec in Hrun
    as [(_ & _ & [=])|(_ & w1 & r1 & cs & _ & Hpost & _ & _ & Hr)].
  destruct r1 as [[out' m']| | |]; simpl in Hr; simplify_eq.
  destruct Hpost as (_ & _ & _ & _ & _ & _ & _ & _ & HF & _).
  split; [symmetry; by eapply Forall2_length|].
  split; [|intros; by eapply artworks_loop_prefix].
  intros i s Hi.
  destruct (Forall2_lookup_l _ _ _ _ _ HF Hi) as (s' & Ho & He).
  exists s'. split; [done|]. unfold enriched in He.
  destruct (trackID (SpotifyTrackURI s)) as [[id|]| | |]; try done.
  - destruct He as (a & _ & ->). repeat split; [done|]. intros; simpl; eauto.
  - subst s'. repeat split; [by destruct s|done].
Qed.

Lemma enrichment_frame_witness :
  addStreamArtworks liveEnv false sortedB world0
  = ({| output := [ArtworksTotal 1]; calls := ["AAA"]; bar := 2;
        sorted_streams := NoFile |}, Ok enrichedB)
  ∧ length enrichedB = length sortedB
  ∧ (∀ i s, sortedB !! i = Some s →
       ∃ s', enrichedB !! i = Some s'
             ∧ s' = setArtworkURL s (ArtworkURL s')
             ∧ (trackID (SpotifyTrackURI s) = Ok None → s' = s)
             ∧ (∀ id, trackID (SpotifyTrackURI s) = Ok (Some id) →
                  is_Some (ArtworkURL s')))
  ∧ (∀ n i xs m w0 w1 out1 m1,
       artworks_loop liveEnv false n i xs m w0 = (w1, Ok (out1, m1)) →
       length out1 = length xs ∧ take i out1 = take i xs).
Proof.
  assert (addStreamArtworks liveEnv false sortedB world0
          = ({| output := [ArtworksTotal 1]; calls := ["AAA"]; bar := 2;
                sorted_streams := NoFile |}, Ok enrichedB))
    as Hrun by (vm_compute; reflexivity).
  split; [exact Hrun|].
  exact (enrichment_frame liveEnv false sortedB world0 _ _ Hrun).
Defined.

(** ** A failed call ends the run *)

(** C6.  If a remote call of a run fails, the run ends by [log.Fatal] with
    the exit status 1, the failed call is the last call of the run, and
    [sorted_streams.json] is as it was before the run. *)
Theorem fetch_failure_is_fatal v env w w' r n id :
  main v env w = (w', r) →
  calls w' !! n = Some id → (length (calls w) ≤ n)%nat →
  client_GetTrack env n id = GetTrackErr →
  r = Fatal "Error when getting Spotify track: "
  ∧ exit_code r = Some 1
  ∧ length (calls w') = S n
  ∧ sorted_streams w' = sorted_streams w.
Proof.
  unfold main, main_with, bind. intros Hrun Hn Hge Herr.
  destruct (readEndsongFiles v env w) as [w0 r0] eqn:E0.
  apply readEndsongFiles_frame in E0 as [Hc0 Hf0].
  assert (∀ w'' : World, calls w'' = calls w → calls w'' !! n = Some id → False) as Hno.
  { intros w'' Hc Hl. apply lookup_lt_Some in Hl. rewrite Hc in Hl. lia. }
  destruct r0 as [allStreams| | |]; simplify_eq; try by destruct (Hno w').
  simpl in Hrun.
  destruct (length allStreams =? 0)%nat.
  { unfold ret in Hrun. simplify_eq. by destruct (Hno _ Hc0). }
  unfold bind in Hrun.
  destruct (addStreamArtworks _ _ _ _) as [w2 r2] eqn:E2.
  apply addStreamArtworks_spec in E2
    as [(_ & -> & ->)|(_ & w1 & r1 & cs & _ & Hpost & Hc & Hf & ->)].
  { simplify_eq. by destruct (Hno _ Hc0). }
  destruct Hpost as (Hcs & Hfs & _ & Hfail & _). simpl in Hcs, Hfs, Hfail.
  assert (calls w' = calls w ++ cs) as Hw'.
  { destruct r1 as [[out m']|msg|msg|]; simpl in Hrun; simplify_eq;
      [apply writeSortedFile_calls in Hrun|..]; congruence. }
  rewrite Hw', lookup_app_r in Hn by done.
  destruct (Hfail (n - length (calls w))%nat id Hn) as [-> Hlen].
  { rewrite Hc0. by replace (length (calls w) + (n - length (calls w)))%nat with n by lia. }
  simpl in Hrun. simplify_eq. repeat split; try congruence.
  rewrite Hw', length_app. lia.
Qed.

Lemma fetch_failure_witness :
  main scanned (runEnv twoTracks unreachable true true) world0
  = ({| output := [FileDone "endsong_0.json"; StreamsTotal 2]; calls := ["AAA"];
        bar := 0; sorted_streams := NoFile |},
     Fatal "Error when getting Spotify track: ")
  ∧ ["AAA"] !! 0%nat = Some "AAA"
  ∧ (length (calls world0) ≤ 0)%nat
  ∧ client_GetTrack (runEnv twoTracks unreachable true true) 0 "AAA" = GetTrackErr
  ∧ Fatal (A := unit) "Error when getting Spotify track: "
    = Fatal "Error when getting Spotify track: "
  ∧ exit_code (Fatal (A := unit) "Error when getting Spotify track: ") = Some 1
  ∧ length ["AAA"] = 1%nat
  ∧ NoFile = sorted_streams world0.
Proof.
  assert (main scanned (runEnv twoTracks unreachable true true) world0
          = ({| output := [FileDone "endsong_0.json"; StreamsTotal 2];
                calls := ["AAA"]; bar := 0; sorted_streams := NoFile |},
             Fatal "Error when getting Spotify track: "))
    as Hrun by (vm_compute; reflexivity).
  split; [exact Hrun|]. do 3 (split; [reflexivity|]).
  exact (fetch_failure_is_fatal scanned (runEnv twoTracks unreachable true true)
           world0 _ _ 0%nat "AAA" Hrun eq_refl (le_n 0) eq_refl).
Defined.

(** ** The writer *)

Lemma Marshal_Stream_members env s doc :
  Marshal_Stream env s = Some doc →
  ∃ members, doc = JObj members
             ∧ ∀ key v, (key, v) ∈ optionals s → values key members = [v].
Proof.
  unfold Marshal_Stream. destruct (Time_MarshalJSON env (Ts s)) as [txt|]; [|done].
  simpl. intros [= <-]. eexists. split; [done|].
  intros key v Hin. unfold optionals in Hin.
  repeat (apply elem_of_cons in Hin as [[= -> ->]|Hin]; [reflexivity|]).
  by apply elem_of_nil in Hin.
Qed.

Lemma Unmarshal_Marshal_Stream env s doc :
  Marshal_Stream env s = Some doc → wfStream s → time_law env s →
  Unmarshal_item env doc = Some s.
Proof.
  unfold Marshal_Stream, wfStream, time_law.
  destruct (Time_MarshalJSON env (Ts s)) as [txt|]; [|done].
  simpl. intros [= <-] [Hms Hot] Hlaw. specialize (Hlaw txt eq_refl).
  unfold Unmarshal_item, Unmarshal_Stream.
  cbn -[int64_ok]. rewrite Hlaw, Hms, Hot. cbn.
  destruct s as [? ? ? ? ? ? [?|] ? ? ? ? [?|] [?|] [?|] ? ? ? [?|] ? ? ? [?|]];
    reflexivity.
Qed.

Lemma Unmarshal_Marshal_list env allStreams : ∀ items,
  mapM (Marshal_Stream env) allStreams = Some items →
  Forall wfStream allStreams → Forall (time_law env) allStreams →
  mapM (Unmarshal_item env) items = Some allStreams.
Proof.
  intros items HM Hwf Hlaw. apply mapM_Some in HM. apply mapM_Some.
  induction HM as [|s item l items Hs HM IH]; [constructor|].
  apply Forall_cons in Hwf as [? ?]. apply Forall_cons in Hlaw as [? ?].
  constructor; [by apply Unmarshal_Marshal_Stream|by apply IH].
Qed.

(** C7.  When [writeSortedFile] succeeds on records whose integers are in
    the range of [int64] and whose times are read back from their text, the
    file holds the document [json.Marshal] gives for the records,
    [json.Unmarshal] of that document gives the records back, and every
    object of the document has each optional field, the artwork among them,
    exactly once: as [null] when the field is absent, as its value when it
    is present. *)
Theorem output_round_trip env allStreams w w' :
  writeSortedFile env allStreams w = (w', Ok tt) →
  Forall wfStream allStreams → Forall (time_law env) allStreams →
  ∃ doc,
    sorted_streams w' = Holds doc
    ∧ Marshal env allStreams = Some doc
    ∧ Unmarshal env (Some doc) = Some allStreams
    ∧ (allStreams ≠ [] →
       ∃ items, doc = JArr items
         ∧ Forall2 (λ s item,
              ∃ members, item = JObj members
                ∧ ∀ key v, (key, v) ∈ optionals s → values key members = [v])
            allStreams items).
Proof.
  unfold writeSortedFile, Encode, Write, Create; unfold_M.
  intros Hrun Hwf Hlaw.
  destruct (Marshal env allStreams) as [doc|] eqn:HM;
    [|by repeat case_match; simplify_eq].
  destruct (os_Create env), (File_Write env); simpl in Hrun; simplify_eq.
  exists doc. split; [done|]. split; [done|].
  unfold Marshal in HM. destruct allStreams as [|s l]; [by simplify_eq|].
  destruct (mapM (Marshal_Stream env) (s :: l)) as [items|] eqn:Hitems;
    simpl in HM; simplify_eq.
  split.
  - simpl. by apply Unmarshal_Marshal_list.
  - intros _. exists items. split; [done|].
    apply mapM_Some in Hitems. eapply Forall2_impl; [exact Hitems|].
    intros s' item Hs'. by apply (Marshal_Stream_members env).
Qed.

Lemma output_round_trip_witness :
  writeSortedFile liveEnv enrichedB worldB
  = ((writeSortedFile liveEnv enrichedB worldB).1, Ok tt)
  ∧ Forall wfStream enrichedB
  ∧ Forall (time_law liveEnv) enrichedB
  ∧ ∃ doc,
      sorted_streams (writeSortedFile liveEnv enrichedB worldB).1 = Holds doc
      ∧ Marshal liveEnv enrichedB = Some doc
      ∧ Unmarshal liveEnv (Some doc) = Some enrichedB
      ∧ (enrichedB ≠ [] →
         ∃ items, doc = JArr items
           ∧ Forall2 (λ s item,
                ∃ members, item = JObj members
                  ∧ ∀ key v, (key, v) ∈ optionals s → values key members = [v])
              enrichedB items).
Proof.
  assert (writeSortedFile liveEnv enrichedB worldB
          = ((writeSortedFile liveEnv enrichedB worldB).1, Ok tt))
    as Hrun by (vm_compute; reflexivity).
  assert (Forall wfStream enrichedB) as Hwf
    by (repeat constructor; vm_compute; reflexivity).
  assert (Forall (time_law liveEnv) enrichedB) as Hlaw
    by (repeat constructor; intros txt Htxt; vm_compute in Htxt;
        injection Htxt as <-; reflexivity).
  split; [exact Hrun|]. split; [exact Hwf|]. split; [exact Hlaw|].
  exact (output_round_trip liveEnv enrichedB worldB _ Hrun Hwf Hlaw).
Defined.

(** C8.  If [os.Create] fails or the write fails, [writeSortedFile] ends by
    [log.Fatal] with the diagnostic of the encoder and the exit status 1
    (the error of [os.Create] is dropped, and the write on the nil file is
    what fails); a run of [main] can then only succeed when it has loaded
    no record and has written nothing. *)
Theorem output_failure_is_fatal env :
  os_Create env = false ∨ File_Write env = false →
  (∀ allStreams w,
     ∃ w', writeSortedFile env allStreams w = (w', Fatal "Error when encoding file: ")
           ∧ exit_code (Fatal (A := unit) "Error when encoding file: ") = Some 1
           ∧ sorted_streams w'
             = if os_Create env then Truncated else sorted_streams w)
  ∧ (∀ v w w', main v env w = (w', Ok tt) →
       ∃ w0, readEndsongFiles v env w = (w0, Ok [])
             ∧ sorted_streams w' = sorted_streams w).
Proof.
  intros Hfail.
  assert (∀ allStreams w,
     ∃ w', writeSortedFile env allStreams w = (w', Fatal "Error when encoding file: ")
           ∧ sorted_streams w'
             = if os_Create env then Truncated else sorted_streams w) as Hw.
  { intros allStreams w.
    unfold writeSortedFile, Encode, Write, Create; unfold_M.
    destruct (Marshal env allStreams), (os_Create env) eqn:Hc,
      (File_Write env) eqn:Hw; simpl; try (by eexists); naive_solver. }
  split.
  - intros allStreams w. destruct (Hw allStreams w) as (w' & ? & ?). eauto.
  - intros v w w'. unfold main, main_with, bind.
    destruct (readEndsongFiles v env w) as [w0 [allStreams| | |]] eqn:E0; try done.
    apply readEndsongFiles_frame in E0 as Hfr. destruct Hfr as [_ Hf0].
    simpl. destruct (Nat.eqb_spec (length allStreams) 0) as [Hz|Hnz].
    + unfold ret. intros [= <-]. apply length_zero_iff_nil in Hz as ->. eauto.
    + unfold bind.
      destruct (addStreamArtworks _ _ _ _) as [w2 [out| | |]]; try done.
      destruct (Hw out w2) as (w3 & -> & _). done.
Qed.

Lemma output_failure_witness :
  (os_Create (sampleEnv None artwork_of false true) = false
   ∨ File_Write (sampleEnv None artwork_of false true) = false)
  ∧ (∀ allStreams w,
       ∃ w', writeSortedFile (sampleEnv None artwork_of false true) allStreams w
             = (w', Fatal "Error when encoding file: ")
             ∧ exit_code (Fatal (A := unit) "Error when encoding file: ") = Some 1
             ∧ sorted_streams w'
               = if os_Create (sampleEnv None artwork_of false true)
                 then Truncated else sorted_streams w)
  ∧ (∀ v w w', main v (sampleEnv None artwork_of false true) w = (w', Ok tt) →
       ∃ w0, readEndsongFiles v (sampleEnv None artwork_of false true) w = (w0, Ok [])
             ∧ sorted_streams w' = sorted_streams w).
Proof.
  assert (os_Create (sampleEnv None artwork_of false true) = false
          ∨ File_Write (sampleEnv None artwork_of false true) = false)
    as Hfail by (left; reflexivity).
  split; [exact Hfail|].
  exact (output_failure_is_fatal (sampleEnv None artwork_of false true) Hfail).
Defined.

(** ** No input *)

Lemma Scanned_loop_no_input env files : ∀ allStreams w,
  Forall (λ f, isInput f = false) files →
  Scanned.loop env files allStreams w = (w, Ok allStreams).
Proof.
  induction files as [|f files IH]; intros allStreams w Hno; simpl; [done|].
  apply Forall_cons in Hno as [Hf Hno]. unfold isInput in Hf.
  destruct (HasSuffix f ".json"); simpl in *; [|by apply IH].
  rewrite Hf. by apply IH.
Qed.

(** C5 (as amended).  In the variant that scans the directory, a directory
    without input files gives a run that prints the count 0 and exits with
    the status 0, without a remote call and without touching the output
    file.  In the variant of the numbered names, a missing
    [endsong_0.json] is fatal.  In both, a run that loads no record exits
    with the status 0 and skips the enrichment and the writing. *)
Theorem zero_records_exit_zero_without_output env w :
  (∀ files,
     ioutil_ReadDir env = Some files → Forall (λ f, isInput f = false) files →
     ∃ w', main scanned env w = (w', Ok tt)
           ∧ exit_code (main scanned env w).2 = Some 0
           ∧ output w' = output w ++ [StreamsTotal 0]
           ∧ calls w' = calls w ∧ sorted_streams w' = sorted_streams w)
  ∧ (os_Stat env "endsong_0.json" = StatNotExist →
     ∀ fuel,
       main (numbered (S fuel)) env w = (w, Fatal "No endsong_0.json file found")
       ∧ exit_code (main (numbered (S fuel)) env w).2 = Some 1)
  ∧ (∀ v w0,
       readEndsongFiles v env w = (w0, Ok []) →
       ∃ w', main v env w = (w', Ok tt)
             ∧ exit_code (main v env w).2 = Some 0
             ∧ output w' = output w0 ++ [StreamsTotal 0]
             ∧ calls w' = calls w ∧ bar w' = bar w0
             ∧ sorted_streams w' = sorted_streams w).
Proof.
  split; [|split].
  - intros files Hdir Hno. unfold main, main_with, bind. simpl.
    unfold Scanned.readEndsongFiles. rewrite Hdir, Scanned_loop_no_input by done.
    simpl. by eexists.
  - intros Hstat fuel. unfold main, main_with, bind. simpl.
    unfold Numbered.readEndsongFiles. simpl.
    change ("endsong_" +:+ pretty 0%nat +:+ ".json") with "endsong_0.json".
    by rewrite Hstat.
  - intros v w0 Hload. apply readEndsongFiles_frame in Hload as Hfr.
    destruct Hfr as [Hc Hf]. unfold main, main_with, bind. rewrite Hload. simpl.
    eexists. split; [done|]. done.
Qed.

(** With the numbered names, a directory without input files ends the run
    with the status 1, not 0. *)
Lemma zero_files_fatal_when_numbered :
  Forall (λ f, isInput f = false) ["notes.txt"; "sorted_streams.json"]
  ∧ main (numbered 1) noInputEnv world0
    = (world0, Fatal "No endsong_0.json file found")
  ∧ exit_code (main (numbered 1) noInputEnv world0).2 = Some 1
  ∧ exit_code (main (numbered 1) noInputEnv world0).2 ≠ Some 0.
Proof. vm_compute. repeat split; try done; repeat constructor. Qed.

Lemma zero_records_witness :
  (ioutil_ReadDir noInputEnv = Some ["notes.txt"; "sorted_streams.json"]
   ∧ Forall (λ f, isInput f = false) ["notes.txt"; "sorted_streams.json"]
   ∧ ∃ w', main scanned noInputEnv world0 = (w', Ok tt)
           ∧ exit_code (main scanned noInputEnv world0).2 = Some 0
           ∧ output w' = output world0 ++ [StreamsTotal 0]
           ∧ calls w' = calls world0 ∧ sorted_streams w' = sorted_streams world0)
  ∧ (os_Stat noInputEnv "endsong_0.json" = StatNotExist
     ∧ ∀ fuel,
         main (numbered (S fuel)) noInputEnv world0
         = (world0, Fatal "No endsong_0.json file found")
         ∧ exit_code (main (numbered (S fuel)) noInputEnv world0).2 = Some 1)
  ∧ (readEndsongFiles (numbered 2) (sampleEnv (Some (JArr [])) artwork_of true true) world0
     = ({| output := [FileDone "endsong_0.json"]; calls := []; bar := 0;
           sorted_streams := NoFile |}, Ok [])
     ∧ ∃ w', main (numbered 2) (sampleEnv (Some (JArr [])) artwork_of true true) world0
             = (w', Ok tt)
             ∧ exit_code (main (numbered 2)
                            (sampleEnv (Some (JArr [])) artwork_of true true) world0).2
               = Some 0
             ∧ output w' = [FileDone "endsong_0.json"] ++ [StreamsTotal 0]
             ∧ calls w' = calls world0 ∧ bar w' = 0%nat
             ∧ sorted_streams w' = sorted_streams world0).
Proof.
  assert (Forall (λ f, isInput f = false) ["notes.txt"; "sorted_streams.json"])
    as Hno by (repeat constructor).
  destruct (zero_records_exit_zero_without_output noInputEnv world0) as (Hs & Hn & _).
  destruct (zero_records_exit_zero_without_output
              (sampleEnv (Some (JArr [])) artwork_of true true) world0) as (_ & _ & Hz).
  split; [|split].
  - split; [reflexivity|]. split; [exact Hno|]. apply (Hs _ eq_refl Hno).
  - split; [reflexivity|]. apply Hn. reflexivity.
  - assert (readEndsongFiles (numbered 2)
              (sampleEnv (Some (JArr [])) artwork_of true true) world0
            = ({| output := [FileDone "endsong_0.json"]; calls := []; bar := 0;
                  sorted_streams := NoFile |}, Ok [])) as Hload
      by (vm_compute; reflexivity).
    split; [exact Hload|]. exact (Hz _ _ Hload).
Defined.

(** ** The identifier that is one piece long *)

Example trackID_track : trackID "spotify:track:AAA" = Ok (Some "AAA").
Proof. reflexivity. Qed.
Example trackID_episode : trackID "spotify:episode:BBB" = Ok None.
Proof. reflexivity. Qed.
Example trackID_two_pieces : trackID "spotify:track" = Ok None.
Proof. reflexivity. Qed.
Example trackID_empty : trackID "" = Ok None.
Proof. reflexivity. Qed.
Example trackID_other_word : trackID "podcast" = Ok None.
Proof. reflexivity. Qed.

(** C3. The identifier ["spotify"] has one piece, fewer than three, and the
    key extractor does not classify it as not-enrichable: the guard reads
    the second piece before it looks at the number of pieces, and the read
    is out of range.  ([trackID_track_uri] and [trackID_cases] are the rest
    of the claim, which holds: a well-formed identifier yields its id, and
    every other identifier but this one is skipped.) *)
Theorem key_extractor_panics_on_bare_namespace :
  strings_Split "spotify" ":" = ["spotify"]
  ∧ (length (strings_Split "spotify" ":") < 3)%nat
  ∧ trackID "spotify" = Panic "index out of range"
  ∧ trackID "spotify" ≠ Ok None.
Proof. repeat split; [simpl; lia|done]. Qed.

(** C4. A run over one record whose identifier is the single word
    ["spotify"] does not skip the record and go on: it ends in a run-time
    panic, with the exit status 2 and no output file, in both variants. *)
Theorem bare_namespace_panics_the_run :
  main scanned (runEnv bareNamespace artwork_of true true) world0
  = ({| output := [FileDone "endsong_0.json"; StreamsTotal 1]; calls := [];
        bar := 0; sorted_streams := NoFile |}, Panic "index out of range")
  ∧ main (numbered 2) (runEnv bareNamespace artwork_of true true) world0
    = ({| output := [FileDone "endsong_0.json"; StreamsTotal 1]; calls := [];
          bar := 0; sorted_streams := NoFile |}, Panic "index out of range")
  ∧ exit_code (Panic (A := unit) "index out of range") = Some 2.
Proof. vm_compute. repeat split; reflexivity. Qed.

(** ** The scenarios of the specification *)

Example scenario_B :
  let run := main scanned (runEnv scenarioB artwork_of true true) world0 in
  run.2 = Ok tt
  ∧ output run.1 = [FileDone "endsong_0.json"; StreamsTotal 3; ArtworksTotal 1;
                    StreamsSorted 3]
  ∧ calls run.1 = ["AAA"]
  ∧ bar run.1 = 2%nat
  ∧ match sorted_streams run.1 with
    | Holds doc => Unmarshal liveEnv (Some doc) = Some enrichedB
    | _ => False
    end.
Proof. vm_compute. repeat split; reflexivity. Qed.

Example scenario_C :
  (main scanned (runEnv [stream 1 "spotify:track"] artwork_of true true) world0).2
  = Ok tt
  ∧ calls (main scanned (runEnv [stream 1 "spotify:track"] artwork_of true true) world0).1
    = [].
Proof. vm_compute. split; reflexivity. Qed.

(** * Further properties *)

(** ** The loaders *)

Lemma printed_nil w : printed w [] = w.
Proof. destruct w. unfold printed. simpl. by rewrite app_nil_r. Qed.

Lemma printed_printed w ls ls' : printed (printed w ls) ls' = printed w (ls ++ ls').
Proof. unfold printed. simpl. by rewrite app_assoc. Qed.

Lemma readFile_decodes env fileName allStreams w :
  readFile env fileName allStreams w
  = match decodes env fileName with
    | Some fileStreams =>
        (printed w [FileDone fileName], Ok (allStreams ++ fileStreams))
    | None => (w, Fatal (readFile_diagnostic env fileName))
    end.
Proof.
  unfold readFile, decodes, readFile_diagnostic; unfold_M.
  destruct (ioutil_ReadFile env fileName) as [|content]; [done|].
  by destruct (Unmarshal env content).
Qed.

Lemma contents_cons env n ns :
  contents env (n :: ns) = default [] (decodes env n) ++ contents env ns.
Proof. reflexivity. Qed.

Lemma contents_app env ns ns' :
  contents env (ns ++ ns') = contents env ns ++ contents env ns'.
Proof. unfold contents. apply bind_app. Qed.

(** Files that all decode are appended one after the other. *)
Lemma readFiles_all env fileNames : ∀ allStreams w,
  Forall (λ n, is_Some (decodes env n)) fileNames →
  readFiles env fileNames allStreams w
  = (printed w (FileDone <$> fileNames), Ok (allStreams ++ contents env fileNames)).
Proof.
  induction fileNames as [|n ns IH]; intros allStreams w Hall; simpl.
  - unfold ret, contents. simpl. by rewrite printed_nil, app_nil_r.
  - apply Forall_cons in Hall as [[l Hl] Hall].
    unfold bind. rewrite readFile_decodes, Hl, IH by done.
    rewrite printed_printed. simpl. by rewrite <- app_assoc.
Qed.

(** The first file that does not decode ends the reading. *)
Lemma readFiles_first_bad env good bad rest : ∀ allStreams w,
  Forall (λ n, is_Some (decodes env n)) good → decodes env bad = None →
  readFiles env (good ++ bad :: rest) allStreams w
  = (printed w (FileDone <$> good), Fatal (readFile_diagnostic env bad)).
Proof.
  induction good as [|n ns IH]; intros allStreams w Hall Hbad; simpl.
  - unfold bind. by rewrite readFile_decodes, Hbad, printed_nil.
  - apply Forall_cons in Hall as [[l Hl] Hall].
    unfold bind. rewrite readFile_decodes, Hl, IH by done.
    by rewrite printed_printed.
Qed.

(** The scan reads the names that are inputs, and those only. *)
Lemma Scanned_loop_readFiles env files : ∀ allStreams w,
  Scanned.loop env files allStreams w
  = readFiles env (filter (λ n, isInput n = true) files) allStreams w.
Proof.
  induction files as [|n ns IH]; intros allStreams w; simpl; [done|].
  rewrite filter_cons. case_decide as Hin; unfold isInput in Hin.
  - apply andb_true_iff in Hin as [-> ->]. simpl. unfold bind.
    by destruct (readFile env n allStreams w) as [w1 [l| | |]].
  - destruct (HasSuffix n ".json"), (_ || _); simpl in *; try done; apply IH.
Qed.

(** The numbered loop reads the names [endsong i], ..., [endsong (k-1)]
    when they exist, and ends on [endsong k] when it does not. *)
Lemma Numbered_loop_readFiles env k : ∀ fuel i allStreams w,
  (i ≤ k < i + fuel)%nat →
  (∀ j, (i ≤ j < k)%nat → os_Stat env (endsong j) = StatOk) →
  os_Stat env (endsong k) ≠ StatOk →
  Numbered.loop env fuel i allStreams w
  = (let* allStreams := readFiles env (endsong <$> seq i (k - i)) allStreams in
     match os_Stat env (endsong k) with
     | StatNotExist =>
         if (k =? 0)%nat then log_Fatal "No endsong_0.json file found"
         else ret allStreams
     | _ => log_Fatal "Error when opening file: "
     end) w.
Proof.
  induction fuel as [|fuel IH]; intros i allStreams w Hi Hok Hk; [lia|].
  cbn [Numbered.loop]. fold (endsong i).
  destruct (decide (i = k)) as [->|Hne].
  - rewrite Nat.sub_diag. simpl. unfold bind, ret.
    destruct (os_Stat env (endsong k)); done.
  - rewrite Hok by lia.
    replace (k - i)%nat with (S (k - S i)) by lia. simpl.
    unfold bind at 1. unfold bind at 1. unfold bind at 1.
    destruct (readFile env (endsong i) allStreams w) as [w1 [l| | |]]; try done.
    rewrite IH; [done|lia| |done]. intros j Hj. apply Hok. lia.
Qed.

(** A step of the numbered loop for each of [n] files that exist and
    decode. *)
Lemma Numbered_loop_steps env n : ∀ fuel i allStreams w,
  (∀ j, (i ≤ j < i + n)%nat →
        os_Stat env (endsong j) = StatOk ∧ is_Some (decodes env (endsong j))) →
  Numbered.loop env (n + fuel) i allStreams w
  = Numbered.loop env fuel (i + n)
      (allStreams ++ contents env (endsong <$> seq i n))
      (printed w (FileDone <$> (endsong <$> seq i n))).
Proof.
  induction n as [|n IH]; intros fuel i allStreams w Hok.
  - simpl. by rewrite Nat.add_0_r, app_nil_r, printed_nil.
  - cbn [Nat.add Numbered.loop]. fold (endsong i).
    destruct (Hok i) as [-> [l Hl]]; [lia|].
    unfold bind. rewrite readFile_decodes, Hl, IH by (intros j Hj; apply Hok; lia).
    rewrite printed_printed. cbn [seq fmap list_fmap].
    rewrite contents_cons, Hl. simpl.
    by rewrite <- app_assoc, Nat.add_succ_r.
Qed.

(** X1.  The loader that numbers its files: when [endsong_0.json] to
    [endsong_(k-1).json] exist and decode, [k] being positive, and
    [endsong_k.json] does not exist, the loader returns the records of these
    [k] files, file after file, and prints one line for each of them and
    nothing else.  It stops at the first missing number: a file with a
    higher number is not looked at. *)
Theorem numbered_reads_up_to_the_first_gap env k fuel w :
  (0 < k < fuel)%nat →
  (∀ j, (j < k)%nat →
        os_Stat env (endsong j) = StatOk ∧ is_Some (decodes env (endsong j))) →
  os_Stat env (endsong k) = StatNotExist →
  Numbered.readEndsongFiles env fuel w
  = (printed w (FileDone <$> (endsong <$> seq 0 k)),
     Ok (contents env (endsong <$> seq 0 k))).
Proof.
  intros Hk Hok Hgap. unfold Numbered.readEndsongFiles.
  replace fuel with (k + S (fuel - S k))%nat by lia.
  rewrite Numbered_loop_steps by (intros j Hj; apply Hok; lia).
  cbn [Numbered.loop Nat.add]. fold (endsong k). rewrite Hgap.
  destruct k; [lia|]. done.
Qed.

(** X2.  The loader that numbers its files: when the files before
    [endsong_k.json] exist and decode, and either [os.Stat] fails on
    [endsong_k.json] with an error other than absence, or the file exists
    and cannot be read or decoded, the loader ends by [log.Fatal] with the
    diagnostic of the step that failed, after the lines of the [k] files
    before it. *)
Theorem numbered_bad_file_is_fatal env k fuel w :
  (k < fuel)%nat →
  (∀ j, (j < k)%nat →
        os_Stat env (endsong j) = StatOk ∧ is_Some (decodes env (endsong j))) →
  os_Stat env (endsong k) = StatErr
  ∨ (os_Stat env (endsong k) = StatOk ∧ decodes env (endsong k) = None) →
  Numbered.readEndsongFiles env fuel w
  = (printed w (FileDone <$> (endsong <$> seq 0 k)),
     Fatal (match os_Stat env (endsong k) with
            | StatOk => readFile_diagnostic env (endsong k)
            | _ => "Error when opening file: "
            end)).
Proof.
  intros Hk Hok Hbad. unfold Numbered.readEndsongFiles.
  replace fuel with (k + S (fuel - S k))%nat by lia.
  rewrite Numbered_loop_steps by (intros j Hj; apply Hok; lia).
  cbn [Numbered.loop Nat.add]. fold (endsong k).
  destruct Hbad as [->|[-> Hbad]]; [done|].
  unfold bind. by rewrite readFile_decodes, Hbad.
Qed.

(** X3.  The loader that scans the directory: when the directory can be
    listed and every entry whose name passes the filter can be read and
    decoded, the loader returns the records of these entries in the order of
    the listing and prints one line for each of them; the other entries are
    neither read nor reported. *)
Theorem scanned_reads_the_inputs env files w :
  ioutil_ReadDir env = Some files →
  Forall (λ n, isInput n = true → is_Some (decodes env n)) files →
  Scanned.readEndsongFiles env w
  = (printed w (FileDone <$> filter (λ n, isInput n = true) files),
     Ok (contents env (filter (λ n, isInput n = true) files))).
Proof.
  intros Hdir Hok. unfold Scanned.readEndsongFiles.
  rewrite Hdir, Scanned_loop_readFiles, readFiles_all; [done|].
  apply Forall_forall. intros n [Hin Hn]%list_elem_of_filter.
  rewrite Forall_forall in Hok. by apply Hok.
Qed.

(** X4.  The loader that scans the directory: the first entry that passes
    the filter and cannot be read or decoded ends the scan by [log.Fatal]
    with the diagnostic of the step that failed; the lines of the entries
    read before it are printed and no entry after it is read. *)
Theorem scanned_bad_input_is_fatal env good bad rest w :
  ioutil_ReadDir env = Some (good ++ bad :: rest) →
  Forall (λ n, isInput n = true → is_Some (decodes env n)) good →
  isInput bad = true → decodes env bad = None →
  Scanned.readEndsongFiles env w
  = (printed w (FileDone <$> filter (λ n, isInput n = true) good),
     Fatal (readFile_diagnostic env bad)).
Proof.
  intros Hdir Hok Hin Hbad. unfold Scanned.readEndsongFiles.
  rewrite Hdir, Scanned_loop_readFiles, filter_app, filter_cons_True by done.
  apply readFiles_first_bad; [|done].
  apply Forall_forall. intros n [Hi Hn]%list_elem_of_filter.
  rewrite Forall_forall in Hok. by apply Hok.
Qed.

Lemma numbered_reads_up_to_the_first_gap_witness :
  (0 < 2 < 5)%nat
  ∧ (∀ j, (j < 2)%nat →
          os_Stat (dirEnv gapDir artwork_of) (endsong j) = StatOk
          ∧ is_Some (decodes (dirEnv gapDir artwork_of) (endsong j)))
  ∧ os_Stat (dirEnv gapDir artwork_of) (endsong 2) = StatNotExist
  ∧ Numbered.readEndsongFiles (dirEnv gapDir artwork_of) 5 world0
    = (printed world0 (FileDone <$> (endsong <$> seq 0 2)),
       Ok (contents (dirEnv gapDir artwork_of) (endsong <$> seq 0 2))).
Proof.
  assert (∀ j, (j < 2)%nat →
          os_Stat (dirEnv gapDir artwork_of) (endsong j) = StatOk
          ∧ is_Some (decodes (dirEnv gapDir artwork_of) (endsong j))) as Hok.
  { intros [|[|j]] Hj; [| |lia]; (split; [reflexivity|]); vm_compute; eauto. }
  split; [lia|]. split; [exact Hok|]. split; [reflexivity|].
  exact (numbered_reads_up_to_the_first_gap (dirEnv gapDir artwork_of) 2 5 world0
           ltac:(lia) Hok eq_refl).
Defined.

Lemma numbered_bad_file_witness :
  (1 < 5)%nat
  ∧ (∀ j, (j < 1)%nat →
          os_Stat (dirEnv badDir artwork_of) (endsong j) = StatOk
          ∧ is_Some (decodes (dirEnv badDir artwork_of) (endsong j)))
  ∧ (os_Stat (dirEnv badDir artwork_of) (endsong 1) = StatErr
     ∨ (os_Stat (dirEnv badDir artwork_of) (endsong 1) = StatOk
        ∧ decodes (dirEnv badDir artwork_of) (endsong 1) = None))
  ∧ Numbered.readEndsongFiles (dirEnv badDir artwork_of) 5 world0
    = (printed world0 (FileDone <$> (endsong <$> seq 0 1)),
       Fatal (match os_Stat (dirEnv badDir artwork_of) (endsong 1) with
              | StatOk => readFile_diagnostic (dirEnv badDir artwork_of) (endsong 1)
              | _ => "Error when opening file: "
              end)).
Proof.
  assert (∀ j, (j < 1)%nat →
          os_Stat (dirEnv badDir artwork_of) (endsong j) = StatOk
          ∧ is_Some (decodes (dirEnv badDir artwork_of) (endsong j))) as Hok.
  { intros [|j] Hj; [|lia]. split; [reflexivity|]. vm_compute; eauto. }
  assert (os_Stat (dirEnv badDir artwork_of) (endsong 1) = StatErr
          ∨ (os_Stat (dirEnv badDir artwork_of) (endsong 1) = StatOk
             ∧ decodes (dirEnv badDir artwork_of) (endsong 1) = None)) as Hbad.
  { right. split; reflexivity. }
  split; [lia|]. split; [exact Hok|]. split; [exact Hbad|].
  exact (numbered_bad_file_is_fatal (dirEnv badDir artwork_of) 1 5 world0
           ltac:(lia) Hok Hbad).
Defined.

Lemma scanned_reads_the_inputs_witness :
  ioutil_ReadDir (dirEnv gapDir artwork_of) = Some gapDir.*1
  ∧ Forall (λ n, isInput n = true → is_Some (decodes (dirEnv gapDir artwork_of) n))
      gapDir.*1
  ∧ Scanned.readEndsongFiles (dirEnv gapDir artwork_of) world0
    = (printed world0 (FileDone <$> filter (λ n, isInput n = true) gapDir.*1),
       Ok (contents (dirEnv gapDir artwork_of)
             (filter (λ n, isInput n = true) gapDir.*1))).
Proof.
  assert (Forall (λ n, isInput n = true
                       → is_Some (decodes (dirEnv gapDir artwork_of) n)) gapDir.*1)
    as Hok.
  { repeat constructor; intros Hin; vm_compute in Hin; try discriminate;
      vm_compute; eauto. }
  split; [reflexivity|]. split; [exact Hok|].
  exact (scanned_reads_the_inputs (dirEnv gapDir artwork_of) _ world0 eq_refl Hok).
Defined.

Lemma scanned_bad_input_witness :
  ioutil_ReadDir (dirEnv badDir artwork_of)
  = Some (["endsong_0.json"] ++ "endsong_1.json" :: ["endsong_2.json"])
  ∧ Forall (λ n, isInput n = true → is_Some (decodes (dirEnv badDir artwork_of) n))
      ["endsong_0.json"]
  ∧ isInput "endsong_1.json" = true
  ∧ decodes (dirEnv badDir artwork_of) "endsong_1.json" = None
  ∧ Scanned.readEndsongFiles (dirEnv badDir artwork_of) world0
    = (printed world0
         (FileDone <$> filter (λ n, isInput n = true) ["endsong_0.json"]),
       Fatal (readFile_diagnostic (dirEnv badDir artwork_of) "endsong_1.json")).
Proof.
  assert (Forall (λ n, isInput n = true
                       → is_Some (decodes (dirEnv badDir artwork_of) n))
            ["endsong_0.json"]) as Hok.
  { repeat constructor; intros _; vm_compute; eauto. }
  split; [reflexivity|]. split; [exact Hok|]. do 2 (split; [reflexivity|]).
  exact (scanned_bad_input_is_fatal (dirEnv badDir artwork_of)
           ["endsong_0.json"] "endsong_1.json" ["endsong_2.json"] world0
           eq_refl Hok eq_refl eq_refl).
Defined.

Example gap_in_the_numbers :
  (Numbered.readEndsongFiles (dirEnv gapDir artwork_of) 5 world0).2
  = Ok [stream 2 "spotify:track:AAA"; stream 1 "spotify:track:BBB"]
  ∧ (Scanned.readEndsongFiles (dirEnv gapDir artwork_of) world0).2
    = Ok [stream 2 "spotify:track:AAA"; stream 1 "spotify:track:BBB";
          stream 3 "spotify:track:AAA"].
Proof. vm_compute. split; reflexivity. Qed.

(** ** The identifiers the guard lets through *)

(** No piece of [strings.Split] holds the separator. *)
Lemma strings_Split_pieces_free sep s :
  Forall (λ p, contains p sep = false) (strings_Split s sep).
Proof.
  induction s as [|c s IH]; simpl; [by repeat constructor|].
  destruct (Ascii.eqb c sep) eqn:Hc; [by constructor|].
  destruct (strings_Split s sep) as [|w ws].
  { repeat constructor. simpl. by rewrite Hc. }
  apply Forall_cons in IH as [Hw Hws]. constructor; [|done].
  simpl. by rewrite Hc, Hw.
Qed.

(** The shape of an identifier that is let through. *)
Lemma trackID_Some_shape uri id :
  trackID uri = Ok (Some id) →
  contains id ":" = false
  ∧ (uri = "spotify:track:" +:+ id
     ∨ ∃ more, uri = "spotify:track:" +:+ id +:+ String ":" more).
Proof.
  intros [rest Hs]%trackID_Some_inv.
  pose proof (strings_Split_pieces_free ":" uri) as Hfree.
  pose proof (strings_Split_concat ":" uri) as Hcat.
  rewrite Hs in Hfree, Hcat.
  do 2 apply Forall_cons in Hfree as [_ Hfree].
  apply Forall_cons in Hfree as [Hid _]. split; [done|].
  destruct rest as [|r rest]; simpl in Hcat.
  - left. by rewrite <- Hcat.
  - right. eexists. rewrite <- Hcat. simpl. reflexivity.
Qed.

(** A string up to its first separator. *)
Lemma first_piece sep s :
  ∃ w, contains w sep = false ∧ (s = w ∨ ∃ more, s = w +:+ String sep more).
Proof.
  induction s as [|c s (w & Hw & IH)].
  - exists EmptyString. split; [done|by left].
  - destruct (Ascii.eqb_spec c sep) as [->|Hne].
    + exists EmptyString. split; [done|]. right. by exists s.
    + exists (String c w). split.
      * cbn [contains]. rewrite Hw. by apply Ascii.eqb_neq in Hne as ->.
      * destruct IH as [->|[more ->]]; [by left|]. right. by exists more.
Qed.

Lemma HasPrefix_app s p : HasPrefix s p = true ↔ ∃ t, s = p +:+ t.
Proof.
  unfold HasPrefix. revert s. induction p as [|c p IH]; intros s.
  - split; [by exists s|]. by destruct s.
  - destruct s as [|c' s]; [split; [done|by intros [? ?]]|].
    cbn [String.prefix].
    destruct (Ascii.ascii_dec c c') as [->|Hne].
    + rewrite IH. split; intros [t Ht]; exists t.
      * by rewrite Ht.
      * change (String c' s = String c' (p +:+ t)) in Ht. congruence.
    + split; [done|]. intros [t Ht].
      change (String c' s = String c (p +:+ t)) in Ht. congruence.
Qed.

(** X5.  The guard lets an identifier through with the id [id] exactly when
    the identifier is ["spotify:track:"] followed by [id], or by [id], a
    colon and anything, where [id] holds no colon.  The id may be empty. *)
Theorem trackID_accepts_iff uri id :
  trackID uri = Ok (Some id)
  ↔ contains id ":" = false
    ∧ (uri = "spotify:track:" +:+ id
       ∨ ∃ more, uri = "spotify:track:" +:+ id +:+ String ":" more).
Proof.
  split; [apply trackID_Some_shape|].
  intros [Hid [->|[more ->]]].
  - by apply trackID_track_uri.
  - by apply trackID_third_piece.
Qed.

(** X6.  The guard skips an identifier exactly when it is not the single
    word ["spotify"] and does not begin with ["spotify:track:"]. *)
Theorem trackID_skips_iff uri :
  trackID uri = Ok None
  ↔ uri ≠ "spotify" ∧ HasPrefix uri "spotify:track:" = false.
Proof.
  split.
  - intros Hk. split; [by intros ->|].
    destruct (HasPrefix uri "spotify:track:") eqn:Hp; [|done].
    apply HasPrefix_app in Hp as [t ->].
    destruct (first_piece ":" t) as (id & Hid & [->|[more ->]]).
    + by rewrite trackID_track_uri in Hk.
    + by rewrite trackID_third_piece in Hk.
  - intros [Hne Hp].
    destruct (trackID uri) as [[id|]|msg|msg|] eqn:Hk; [|done|..].
    + apply trackID_Some_shape in Hk as [_ Hk].
      assert (HasPrefix uri "spotify:track:" = true) as Hq; [|congruence].
      apply HasPrefix_app.
      destruct Hk as [->|[more ->]]; [by eexists|].
      exists (id +:+ String ":" more). done.
    + by destruct (trackID_not_Fatal uri msg).
    + destruct Hne. apply trackID_panics_iff. by eexists.
    + by destruct (trackID_not_Spin uri).
Qed.

(** ** What the enrichment stage prints and counts *)

(** The effect of one completed turn on the bar and on the output. *)
Lemma enrich_trace env logs m s w w1 m1 s1 :
  enrich env logs m s w = (w1, Ok (m1, s1)) →
  (trackID (SpotifyTrackURI s) = Ok None
   ∧ bar w1 = bar w
   ∧ output w1 = output w ++ (if logs then [SkippedStream s] else []))
  ∨ (∃ id, trackID (SpotifyTrackURI s) = Ok (Some id)
           ∧ bar w1 = S (bar w) ∧ output w1 = output w).
Proof.
  unfold enrich; unfold_M.
  destruct (trackID (SpotifyTrackURI s)) as [[id|]| | |]; simpl; try done.
  - intros Hrun. right. exists id. split; [done|].
    destruct (m !! id) as [a|]; simpl in Hrun.
    + simplify_eq. simpl. split; [lia|done].
    + destruct (client_GetTrack env (length (calls w)) id) as [|[|a imgs]];
        simpl in Hrun; simplify_eq. simpl. split; [lia|done].
  - intros Hrun. left. split; [done|].
    destruct logs; simpl in Hrun; simplify_eq; simpl; [done|].
    by rewrite app_nil_r.
Qed.

Lemma isSkipped_None s : trackID (SpotifyTrackURI s) = Ok None → isSkipped s = true.
Proof. unfold isSkipped. by intros ->. Qed.

Lemma isSkipped_Some s id :
  trackID (SpotifyTrackURI s) = Ok (Some id) → isSkipped s = false.
Proof. unfold isSkipped. by intros ->. Qed.

Lemma enrichAll_trace env logs l : ∀ m w w' out m',
  enrichAll env logs l m w = (w', Ok (out, m')) →
  bar w' = (bar w + length (trackIDs l))%nat
  ∧ output w'
    = output w ++ (if logs
                   then SkippedStream <$> filter (λ s, isSkipped s = true) l
                   else [])
  ∧ (length (trackIDs l) + length (filter (λ s, isSkipped s = true) l))%nat
    = length l.
Proof.
  induction l as [|s l IH]; intros m w w' out m' Hrun.
  - simpl in Hrun. unfold ret in Hrun. simplify_eq. simpl.
    split; [lia|]. split; [|done]. destruct logs; by rewrite app_nil_r.
  - cbn [enrichAll] in Hrun. unfold bind in Hrun.
    destruct (enrich env logs m s w) as [w1 [[m1 s1]| | |]] eqn:E1; try done.
    destruct (enrichAll env logs l m1 w1) as [w2 [[out2 m2]| | |]] eqn:E2; try done.
    unfold ret in Hrun. simplify_eq.
    apply IH in E2 as (Hbar & Hout & Hlen).
    apply enrich_trace in E1 as [(Hk & Hb & Ho)|(id & Hk & Hb & Ho)].
    + cbn [trackIDs]. rewrite Hk, filter_cons_True by by apply isSkipped_None.
      rewrite Hbar, Hb, Hout, Ho. split; [done|]. split; [|simpl; lia].
      destruct logs; simpl; by rewrite <- app_assoc.
    + cbn [trackIDs]. rewrite Hk, filter_cons_False
        by (rewrite (isSkipped_Some _ _ Hk); done).
      rewrite Hbar, Hb, Hout, Ho. simpl. split; [lia|]. split; [done|lia].
Qed.

Lemma list_to_set_firsts ids :
  list_to_set (firsts ∅ ids) = (list_to_set ids : gset string).
Proof.
  apply set_eq. intros id. rewrite !elem_of_list_to_set, firsts_elem_of.
  pose proof (not_elem_of_empty (C := gset string) id). tauto.
Qed.

(** X7.  When the enrichment stage completes, the progress bar has advanced
    by the number of records the guard let through, not by the number of
    records: a skipped record leaves the bar where it is, and each record is
    either let through or skipped. *)
Theorem bar_counts_the_enriched env logs allStreams w w' out :
  addStreamArtworks env logs allStreams w = (w', Ok out) →
  bar w' = (bar w + length (trackIDs allStreams))%nat
  ∧ (length (trackIDs allStreams)
     + length (filter (λ s, isSkipped s = true) allStreams))%nat
    = length allStreams.
Proof.
  unfold addStreamArtworks. destruct (config_Token env); [|done]. simpl.
  unfold bind. rewrite artworks_loop_whole.
  destruct (enrichAll env logs allStreams ∅ w) as [w1 [[out1 m1]| | |]] eqn:E;
    try done.
  unfold Println, ret. intros [= <- <-]. simpl.
  apply enrichAll_trace in E as (Hbar & _ & Hlen). done.
Qed.

Lemma bar_counts_the_enriched_witness :
  addStreamArtworks liveEnv true sortedB world0
  = ({| output := [SkippedStream (stream 3 "spotify:episode:BBB"); ArtworksTotal 1];
        calls := ["AAA"]; bar := 2; sorted_streams := NoFile |}, Ok enrichedB)
  ∧ 2%nat = (bar world0 + length (trackIDs sortedB))%nat
  ∧ (length (trackIDs sortedB)
     + length (filter (λ s, isSkipped s = true) sortedB))%nat
    = length sortedB.
Proof.
  assert (addStreamArtworks liveEnv true sortedB world0
          = ({| output := [SkippedStream (stream 3 "spotify:episode:BBB");
                           ArtworksTotal 1];
                calls := ["AAA"]; bar := 2; sorted_streams := NoFile |},
             Ok enrichedB))
    as Hrun by (vm_compute; reflexivity).
  split; [exact Hrun|].
  exact (bar_counts_the_enriched liveEnv true sortedB world0 _ _ Hrun).
Defined.

(** X8.  When the enrichment stage completes, it has printed the log lines
    of the skipped records, in their order, in the variant that logs them
    and none in the other, and then one line with the number of distinct
    track ids, which is the number of remote calls of the stage. *)
Theorem stage_output env logs allStreams w w' out :
  addStreamArtworks env logs allStreams w = (w', Ok out) →
  output w'
  = output w
    ++ (if logs
        then SkippedStream <$> filter (λ s, isSkipped s = true) allStreams
        else [])
    ++ [ArtworksTotal (size (list_to_set (trackIDs allStreams) : gset string))]
  ∧ size (list_to_set (trackIDs allStreams) : gset string)
    = (length (calls w') - length (calls w))%nat.
Proof.
  unfold addStreamArtworks. destruct (config_Token env); [|done]. simpl.
  unfold bind. rewrite artworks_loop_whole.
  destruct (enrichAll env logs allStreams ∅ w) as [w1 [[out1 m1]| | |]] eqn:E;
    try done.
  unfold Println, ret. intros [= <- <-]. simpl.
  pose proof E as Ht. apply enrichAll_trace in Ht as (_ & Hout & _).
  apply enrichAll_spec in E as (cs & Hcs & _ & _ & _ & _ & -> & _ & Hdom & _).
  rewrite dom_empty_L in *. rewrite (left_id_L ∅ (∪)), list_to_set_firsts in Hdom.
  rewrite <- size_dom, Hdom, Hout, <- app_assoc. split; [done|].
  rewrite Hcs, length_app, firsts_length. lia.
Qed.

Lemma stage_output_witness :
  addStreamArtworks liveEnv true sortedB world0
  = ({| output := [SkippedStream (stream 3 "spotify:episode:BBB"); ArtworksTotal 1];
        calls := ["AAA"]; bar := 2; sorted_streams := NoFile |}, Ok enrichedB)
  ∧ [SkippedStream (stream 3 "spotify:episode:BBB"); ArtworksTotal 1]
    = output world0
      ++ (SkippedStream <$> filter (λ s, isSkipped s = true) sortedB)
      ++ [ArtworksTotal (size (list_to_set (trackIDs sortedB) : gset string))]
  ∧ size (list_to_set (trackIDs sortedB) : gset string)
    = (length ["AAA"] - length (calls world0))%nat.
Proof.
  assert (addStreamArtworks liveEnv true sortedB world0
          = ({| output := [SkippedStream (stream 3 "spotify:episode:BBB");
                           ArtworksTotal 1];
                calls := ["AAA"]; bar := 2; sorted_streams := NoFile |},
             Ok enrichedB))
    as Hrun by (vm_compute; reflexivity).
  split; [exact Hrun|].
  exact (stage_output liveEnv true sortedB world0 _ _ Hrun).
Defined.

(** X9.  When the loop completes, the keys of the artwork map are the ids
    of the records the guard let through, and the url under a key is the
    first image of the answer to a call of that id issued by the loop. *)
Theorem map_binds_the_ids_let_through env logs allStreams w w' out artworkByID :
  artworks_loop env logs (length allStreams) 0 allStreams ∅ w
    = (w', Ok (out, artworkByID)) →
  dom artworkByID = list_to_set (trackIDs allStreams)
  ∧ (∀ id, is_Some (artworkByID !! id) ↔ id ∈ trackIDs allStreams)
  ∧ (∀ id a, artworkByID !! id = Some a →
       ∃ n imgs, calls w' !! (length (calls w) + n)%nat = Some id
                 ∧ client_GetTrack env (length (calls w) + n) id = Track (a :: imgs)).
Proof.
  rewrite artworks_loop_whole. intros E.
  apply enrichAll_spec in E as (cs & Hcs & _ & _ & _ & _ & -> & _ & Hdom & _ & Hval).
  rewrite dom_empty_L in *. rewrite (left_id_L ∅ (∪)), list_to_set_firsts in Hdom.
  split; [done|]. split.
  - intros id. by rewrite <- elem_of_dom, Hdom, elem_of_list_to_set.
  - intros id a Ha.
    assert (id ∈ firsts ∅ (trackIDs allStreams)) as Hin.
    { rewrite <- (elem_of_list_to_set (C := gset string)), list_to_set_firsts, <- Hdom.
      apply elem_of_dom. eauto. }
    apply list_elem_of_lookup in Hin as [n Hn].
    destruct (Hval n id Hn) as (a' & imgs & Hr & Ha').
    assert (a' = a) as -> by congruence.
    exists n, imgs. split; [|done].
    rewrite Hcs, lookup_app_r by lia.
    by replace (length (calls w) + n - length (calls w))%nat with n by lia.
Qed.

Lemma map_binds_the_ids_witness :
  artworks_loop driftEnv true (length threePlays) 0 threePlays ∅ world0
  = (threePlaysWorld, Ok (threePlaysOut, threePlaysMap))
  ∧ dom threePlaysMap = list_to_set (trackIDs threePlays)
  ∧ (∀ id, is_Some (threePlaysMap !! id) ↔ id ∈ trackIDs threePlays)
  ∧ (∀ id a, threePlaysMap !! id = Some a →
       ∃ n imgs,
         calls threePlaysWorld !! (length (calls world0) + n)%nat = Some id
         ∧ client_GetTrack driftEnv (length (calls world0) + n) id
           = Track (a :: imgs)).
Proof.
  assert (artworks_loop driftEnv true (length threePlays) 0 threePlays ∅ world0
          = (threePlaysWorld, Ok (threePlaysOut, threePlaysMap)))
    as Hrun by (vm_compute; reflexivity).
  split; [exact Hrun|].
  exact (map_binds_the_ids_let_through driftEnv true threePlays world0 _ _ _ Hrun).
Defined.

(** ** Records in the range of int64 *)

Lemma foldl_dec_int64 vs : ∀ z0 z,
  int64_ok z0 = true → foldl dec_int64 (Some z0) vs = Some z → int64_ok z = true.
Proof.
  induction vs as [|v vs IH]; intros z0 z H0; simpl; [by intros [= <-]|].
  destruct v; simpl; try (by intros ?; eapply IH; eauto).
  all: try (intros Hf; exfalso; clear -Hf; induction vs; simpl in *; done).
  destruct (int64_ok n) eqn:Hn; [by apply IH|].
  intros Hf; exfalso; clear -Hf; induction vs; simpl in *; done.
Qed.

(** [json.Unmarshal] stores into an [int64] only numbers of its range. *)
Lemma Unmarshal_Stream_wf env members s :
  Unmarshal_Stream env members = Some s → wfStream s.
Proof.
  unfold Unmarshal_Stream. cbv zeta. intros H.
  repeat match type of H with
         | (_ ≫= _) = Some _ =>
             let x := fresh "x" in let Hx := fresh "Hx" in
             apply bind_Some in H as (x & Hx & H)
         end.
  simplify_eq. split; simpl; (eapply (foldl_dec_int64 _ 0); [reflexivity|eassumption]).
Qed.

Lemma Unmarshal_wf env content l :
  Unmarshal env content = Some l → Forall wfStream l.
Proof.
  destruct content as [[]|]; simpl; try done.
  - by intros [= <-].
  - intros HM%mapM_Some. induction HM as [|item s items l Hs HM IH]; [done|].
    constructor; [|done]. destruct item; simpl in Hs; simplify_eq.
    + by split.
    + by eapply Unmarshal_Stream_wf.
Qed.

(** ** Whole runs *)

Lemma readFiles_wf env fileNames : ∀ allStreams w w' l,
  readFiles env fileNames allStreams w = (w', Ok l) →
  Forall wfStream allStreams → Forall wfStream l.
Proof.
  induction fileNames as [|n ns IH]; intros allStreams w w' l; simpl.
  - unfold ret. by intros [= <- <-].
  - unfold bind. rewrite readFile_decodes.
    destruct (decodes env n) as [fs|] eqn:Hd; [|done].
    intros Hrun Hwf. eapply IH; [exact Hrun|].
    apply Forall_app. split; [done|].
    unfold decodes in Hd. destruct (ioutil_ReadFile env n); [done|].
    by eapply Unmarshal_wf.
Qed.

Lemma Numbered_loop_wf env fuel : ∀ i allStreams w w' l,
  Numbered.loop env fuel i allStreams w = (w', Ok l) →
  Forall wfStream allStreams → Forall wfStream l.
Proof.
  induction fuel as [|fuel IH]; intros i allStreams w w' l; simpl; [done|].
  destruct (os_Stat env _).
  - unfold bind.
    destruct (readFile env _ allStreams w) as [w1 [l1| | |]] eqn:E; try done.
    intros Hrun Hwf. eapply IH; [exact Hrun|].
    apply (readFiles_wf env [endsong i] allStreams w w1); [|done].
    simpl. unfold bind, endsong. by rewrite E.
  - destruct (i =? 0)%nat; [done|]. unfold ret. by intros [= <- <-].
  - done.
Qed.

(** The records a loader returns are in the range of int64. *)
Lemma readEndsongFiles_wf v env w w' l :
  readEndsongFiles v env w = (w', Ok l) → Forall wfStream l.
Proof.
  destruct v as [fuel|]; simpl.
  - intros H. by eapply Numbered_loop_wf.
  - unfold Scanned.readEndsongFiles. destruct (ioutil_ReadDir env); [|done].
    rewrite Scanned_loop_readFiles. intros H. by eapply readFiles_wf.
Qed.

Lemma readFiles_not_Panic env fileNames : ∀ allStreams w w' msg,
  readFiles env fileNames allStreams w ≠ (w', Panic msg).
Proof.
  induction fileNames as [|n ns IH]; intros allStreams w w' msg; simpl; [done|].
  unfold bind. rewrite readFile_decodes. destruct (decodes env n); [apply IH|done].
Qed.

Lemma readEndsongFiles_not_Panic v env w w' msg :
  readEndsongFiles v env w ≠ (w', Panic msg).
Proof.
  destruct v as [fuel|]; simpl.
  - unfold Numbered.readEndsongFiles. generalize 0%nat (@nil Stream). revert w.
    induction fuel as [|fuel IH]; intros w i allStreams; simpl; [done|].
    destruct (os_Stat env _); [|by destruct (i =? 0)%nat|done].
    unfold bind. rewrite readFile_decodes.
    destruct (decodes env _); [apply IH|done].
  - unfold Scanned.readEndsongFiles. destruct (ioutil_ReadDir env); [|done].
    rewrite Scanned_loop_readFiles. apply readFiles_not_Panic.
Qed.

(** The cases of a run of [main], by the results of its stages. *)
Lemma main_cases v env w :
  main v env w
  = match readEndsongFiles v env w with
    | (w0, Ok allStreams) =>
        let w1 := printed w0 [StreamsTotal (length allStreams)] in
        match allStreams with
        | [] => (w1, Ok tt)
        | _ =>
            match addStreamArtworks env (logsSkipped v)
                    (SliceStable lessTs allStreams) w1 with
            | (w2, Ok out) => writeSortedFile env out w2
            | (w2, Fatal msg) => (w2, Fatal msg)
            | (w2, Panic msg) => (w2, Panic msg)
            | (w2, Spin) => (w2, Spin)
            end
        end
    | (w0, Fatal msg) => (w0, Fatal msg)
    | (w0, Panic msg) => (w0, Panic msg)
    | (w0, Spin) => (w0, Spin)
    end.
Proof.
  unfold main, main_with, bind.
  destruct (readEndsongFiles v env w) as [w0 [allStreams| | |]]; try done.
  by destruct allStreams.
Qed.

Lemma main_nonempty v env w w0 allStreams :
  readEndsongFiles v env w = (w0, Ok allStreams) → allStreams ≠ [] →
  main v env w
  = match addStreamArtworks env (logsSkipped v) (SliceStable lessTs allStreams)
            (printed w0 [StreamsTotal (length allStreams)]) with
    | (w2, Ok out) => writeSortedFile env out w2
    | (w2, Fatal msg) => (w2, Fatal msg)
    | (w2, Panic msg) => (w2, Panic msg)
    | (w2, Spin) => (w2, Spin)
    end.
Proof.
  intros Hload Hne. rewrite main_cases, Hload. by destruct allStreams.
Qed.

(** X10.  Without a token no run issues a remote call or touches the
    output file, and every run that loaded at least one record ends by
    [log.Fatalf] at the token. *)
Theorem without_a_token_nothing_is_fetched v env w w' r :
  config_Token env = false → main v env w = (w', r) →
  calls w' = calls w
  ∧ sorted_streams w' = sorted_streams w
  ∧ (∀ w0 allStreams,
       readEndsongFiles v env w = (w0, Ok allStreams) → allStreams ≠ [] →
       r = Fatal "couldn't get token: ").
Proof.
  intros Htok. rewrite main_cases.
  destruct (readEndsongFiles v env w) as [w0 r0] eqn:E0.
  apply readEndsongFiles_frame in E0 as Hfr. destruct Hfr as [Hc Hf].
  destruct r0 as [allStreams| | |]; try (intros [= <- <-]; by repeat split).
  destruct allStreams as [|s l].
  { intros [= <- <-]. repeat split; try done. by intros ? ? [= <- <-]. }
  unfold addStreamArtworks. rewrite Htok. simpl. unfold log_Fatal, lift.
  intros [= <- <-]. repeat split; try done.
Qed.

Lemma without_a_token_witness :
  config_Token noTokenEnv = false
  ∧ main scanned noTokenEnv world0
    = ({| output := [FileDone "endsong_0.json"; StreamsTotal 2]; calls := [];
          bar := 0; sorted_streams := NoFile |}, Fatal "couldn't get token: ")
  ∧ [] = calls world0
  ∧ NoFile = sorted_streams world0
  ∧ (∀ w0 allStreams,
       readEndsongFiles scanned noTokenEnv world0 = (w0, Ok allStreams) →
       allStreams ≠ [] →
       Fatal (A := unit) "couldn't get token: " = Fatal "couldn't get token: ").
Proof.
  assert (main scanned noTokenEnv world0
          = ({| output := [FileDone "endsong_0.json"; StreamsTotal 2]; calls := [];
                bar := 0; sorted_streams := NoFile |}, Fatal "couldn't get token: "))
    as Hrun by (vm_compute; reflexivity).
  split; [reflexivity|]. split; [exact Hrun|].
  exact (without_a_token_nothing_is_fetched scanned noTokenEnv world0 _ _
           eq_refl Hrun).
Defined.

Lemma turn_calls env logs m s w w1 r1 :
  turn env logs m s w w1 r1 → (length (calls w) ≤ length (calls w1))%nat.
Proof.
  intros []; try done;
    match goal with H : calls _ = _ |- _ => rewrite H end;
    rewrite ?length_app; lia.
Qed.

(** A loop that panics read the identifier ["spotify"], or was answered a
    track without an image. *)
Lemma enrichAll_Panic env logs l : ∀ m w w' msg,
  enrichAll env logs l m w = (w', Panic msg) →
  (∃ s, s ∈ l ∧ SpotifyTrackURI s = "spotify")
  ∨ (∃ n id, calls w' !! n = Some id ∧ (length (calls w) ≤ n)%nat
             ∧ client_GetTrack env n id = Track []).
Proof.
  induction l as [|s l IH]; intros m w w' msg Hrun; [done|].
  cbn [enrichAll] in Hrun. unfold bind in Hrun.
  pose proof (enrich_turn env logs m s w) as Ht.
  destruct (enrich env logs m s w) as [w1 r1]. simpl in Ht.
  pose proof (turn_calls _ _ _ _ _ _ _ Ht) as Hlen.
  destruct Ht as [w1 Hk Hc Hf | msg' Hk | id a w1 Hk Hm Hc Hf
                 | id a imgs w1 Hk Hm Hr Hc Hf | id w1 Hk Hm Hr Hc Hf
                 | id w1 Hk Hm Hr Hc Hf]; try done.
  1,3,4:
    match type of Hrun with
    | context [enrichAll ?e ?b ?l' ?m1 ?w1'] =>
        destruct (enrichAll e b l' m1 w1') as [w2 [[out2 m2]| | |]] eqn:E2;
        try done; simplify_eq;
        apply IH in E2 as [(s' & Hin & Hs')|(n & id' & Hn & Hge & Hr')];
        [left; exists s'; split; [by right|done]
        |right; exists n, id'; repeat split; [done|lia|done]]
    end.
  - left. exists s. split; [left|]. apply trackID_panics_iff. eauto.
  - simplify_eq. right. exists (length (calls w)), id.
    rewrite Hc, lookup_app_r, Nat.sub_diag by lia. done.
Qed.

Lemma elem_of_SliceStable s l : s ∈ SliceStable lessTs l ↔ s ∈ l.
Proof. by rewrite SliceStable_Permutation. Qed.

Lemma writeSortedFile_not_Panic env allStreams w w' msg :
  writeSortedFile env allStreams w ≠ (w', Panic msg).
Proof.
  unfold writeSortedFile, Encode, Write, Create; unfold_M.
  by repeat case_match.
Qed.

(** X11.  A run panics in two cases only: a loaded record has the
    identifier ["spotify"], or the remote answered a call of the run with a
    track that has no image. *)
Theorem main_panics_only_on env v w w' msg :
  main v env w = (w', Panic msg) →
  (∃ w0 allStreams s,
     readEndsongFiles v env w = (w0, Ok allStreams)
     ∧ s ∈ allStreams ∧ SpotifyTrackURI s = "spotify")
  ∨ (∃ n id, calls w' !! n = Some id ∧ (length (calls w) ≤ n)%nat
             ∧ client_GetTrack env n id = Track []).
Proof.
  rewrite main_cases.
  destruct (readEndsongFiles v env w) as [w0 r0] eqn:E0.
  apply readEndsongFiles_frame in E0 as Hfr. destruct Hfr as [Hc0 _].
  destruct r0 as [allStreams| |msg0|]; try done.
  2:{ intros [= <- <-]. by destruct (readEndsongFiles_not_Panic _ _ _ _ _ E0). }
  cbv zeta. destruct allStreams as [|s0 l0]; [done|].
  set (allStreams := s0 :: l0) in *.
  destruct (addStreamArtworks _ _ _ _) as [w2 [out| |msg2|]] eqn:E2; try done.
  { intros H. by destruct (writeSortedFile_not_Panic _ _ _ _ _ H). }
  intros [= <- <-]. unfold addStreamArtworks in E2.
  destruct (config_Token env); [|done]. simpl in E2. unfold bind in E2.
  rewrite artworks_loop_whole in E2.
  destruct (enrichAll _ _ _ _ _) as [w3 [[o3 m3]| |msg3|]] eqn:E3; try done.
  simplify_eq.
  apply enrichAll_Panic in E3 as [(s & Hin & Hs)|(n & id & Hn & Hge & Hr)].
  - left. exists w0, allStreams, s. split; [done|]. split; [|done].
    by apply (elem_of_SliceStable s allStreams).
  - right. exists n, id. simpl in Hge. rewrite Hc0 in Hge. done.
Qed.

Lemma main_panics_only_on_witness :
  main scanned (runEnv bareNamespace artwork_of true true) world0
  = ({| output := [FileDone "endsong_0.json"; StreamsTotal 1]; calls := [];
        bar := 0; sorted_streams := NoFile |}, Panic "index out of range")
  ∧ ((∃ w0 allStreams s,
        readEndsongFiles scanned (runEnv bareNamespace artwork_of true true) world0
        = (w0, Ok allStreams)
        ∧ s ∈ allStreams ∧ SpotifyTrackURI s = "spotify")
     ∨ (∃ n id, ([] : list string) !! n = Some id ∧ (length (calls world0) ≤ n)%nat
                ∧ client_GetTrack (runEnv bareNamespace artwork_of true true) n id
                  = Track [])).
Proof.
  assert (main scanned (runEnv bareNamespace artwork_of true true) world0
          = ({| output := [FileDone "endsong_0.json"; StreamsTotal 1]; calls := [];
                bar := 0; sorted_streams := NoFile |}, Panic "index out of range"))
    as Hrun by (vm_compute; reflexivity).
  split; [exact Hrun|].
  exact (main_panics_only_on (runEnv bareNamespace artwork_of true true) scanned
           world0 _ _ Hrun).
Defined.

(** A loop over identifiers other than ["spotify"], with a remote that
    answers every call with an image, completes. *)
Lemma enrichAll_completes env logs l : ∀ m w,
  Forall (λ s, SpotifyTrackURI s ≠ "spotify") l →
  (∀ n id, ∃ a imgs, client_GetTrack env n id = Track (a :: imgs)) →
  ∃ w' out m', enrichAll env logs l m w = (w', Ok (out, m')).
Proof.
  induction l as [|s l IH]; intros m w Hl Hremote; [by eexists _, _, _|].
  apply Forall_cons in Hl as [Hs Hl].
  cbn [enrichAll]. unfold bind.
  pose proof (enrich_turn env logs m s w) as Ht.
  destruct (enrich env logs m s w) as [w1 r1]. simpl in Ht.
  destruct Ht as [w1 Hk Hc Hf | msg' Hk | id a w1 Hk Hm Hc Hf
                 | id a imgs w1 Hk Hm Hr Hc Hf | id w1 Hk Hm Hr Hc Hf
                 | id w1 Hk Hm Hr Hc Hf].
  1,3,4:
    match goal with
    | |- context [enrichAll ?e ?b ?l' ?m1 ?w1'] =>
        destruct (IH m1 w1' Hl Hremote) as (w2 & out & m2 & ->);
        by eexists _, _, _
    end.
  - destruct Hs. apply trackID_panics_iff. eauto.
  - destruct (Hremote (length (calls w)) id) as (a & imgs & Ha). congruence.
  - destruct (Hremote (length (calls w)) id) as (a & imgs & Ha). congruence.
Qed.

Lemma Marshal_Stream_is_Some env s :
  is_Some (Marshal_Stream env s) ↔ is_Some (Time_MarshalJSON env (Ts s)).
Proof.
  unfold Marshal_Stream.
  destruct (Time_MarshalJSON env (Ts s)); simpl; split; intros [? ?]; eauto; done.
Qed.

Lemma Marshal_is_Some env l :
  Forall (λ s, is_Some (Time_MarshalJSON env (Ts s))) l → is_Some (Marshal env l).
Proof.
  intros Hl. unfold Marshal. destruct l as [|s l]; [by eexists|].
  assert (is_Some (mapM (Marshal_Stream env) (s :: l))) as [items ->]; [|by eexists].
  apply mapM_is_Some. eapply Forall_impl; [exact Hl|].
  intros s' ?. by apply Marshal_Stream_is_Some.
Qed.

(** The records after the enrichment have the times of the records before
    it, in the same places. *)
Lemma enriched_Ts m l out :
  Forall2 (enriched m) l out →
  Forall2 (λ s s', s' = setArtworkURL s (ArtworkURL s')) l out.
Proof.
  intros HF. eapply Forall2_impl; [exact HF|]. intros s s'. unfold enriched.
  destruct (trackID (SpotifyTrackURI s)) as [[id|]| | |]; try done.
  - by intros (a & _ & ->).
  - intros ->. by destruct s.
Qed.

Lemma same_but_artwork_sorted l out :
  Forall2 (λ s s', s' = setArtworkURL s (ArtworkURL s')) l out →
  StronglySorted le_ts l → StronglySorted le_ts out.
Proof.
  induction 1 as [|s s' l out Hs HF IH]; intros Hsort; [constructor|].
  apply StronglySorted_cons in Hsort as [Hall Hsort].
  constructor; [by apply IH|].
  clear IH Hsort. induction HF as [|t t' l out Ht HF IH]; [constructor|].
  apply Forall_cons in Hall as [Hst Hall]. constructor; [|by apply IH].
  rewrite Hs, Ht. unfold le_ts in *. done.
Qed.

Lemma same_but_artwork_wf l out :
  Forall2 (λ s s', s' = setArtworkURL s (ArtworkURL s')) l out →
  Forall wfStream l → Forall wfStream out.
Proof.
  induction 1 as [|s s' l out Hs HF IH]; intros Hwf; [constructor|].
  apply Forall_cons in Hwf as [Hw Hwf]. constructor; [|by apply IH].
  rewrite Hs. exact Hw.
Qed.

Lemma same_but_artwork_Marshal env l out :
  Forall2 (λ s s', s' = setArtworkURL s (ArtworkURL s')) l out →
  Forall (λ s, is_Some (Time_MarshalJSON env (Ts s))) l →
  Forall (λ s, is_Some (Time_MarshalJSON env (Ts s))) out.
Proof.
  induction 1 as [|s s' l out Hs HF IH]; intros Hl; [constructor|].
  apply Forall_cons in Hl as [Hh Hl]. constructor; [|by apply IH].
  by rewrite Hs.
Qed.

(** X12.  A run whose loader succeeds ends successfully when there is a
    token, no record has the identifier ["spotify"], the remote answers
    every call with a track that has an image, the instant of every record
    can be encoded, and the output file can be created and written. *)
Theorem main_succeeds v env w w0 allStreams :
  readEndsongFiles v env w = (w0, Ok allStreams) →
  config_Token env = true →
  Forall (λ s, SpotifyTrackURI s ≠ "spotify") allStreams →
  (∀ n id, ∃ a imgs, client_GetTrack env n id = Track (a :: imgs)) →
  Forall (λ s, is_Some (Time_MarshalJSON env (Ts s))) allStreams →
  os_Create env = true → File_Write env = true →
  ∃ w', main v env w = (w', Ok tt).
Proof.
  intros Hload Htok Huri Hremote Htime Hcreate Hwrite.
  destruct (decide (allStreams = [])) as [->|Hne].
  { rewrite main_cases, Hload. by eexists. }
  rewrite (main_nonempty _ _ _ _ _ Hload Hne).
  set (w1 := printed w0 _).
  assert (Forall (λ s, SpotifyTrackURI s ≠ "spotify") (SliceStable lessTs allStreams))
    as Huri' by by rewrite SliceStable_Permutation.
  destruct (enrichAll_completes env (logsSkipped v) _ ∅ w1 Huri' Hremote)
    as (w2 & out & m2 & E).
  unfold addStreamArtworks. rewrite Htok. cbn [negb]. unfold bind at 1.
  rewrite artworks_loop_whole, E. unfold Println, ret.
  apply enrichAll_spec in E as (cs & _ & _ & _ & _ & _ & _ & _ & _ & HF & _).
  apply enriched_Ts in HF.
  assert (is_Some (Marshal env out)) as [doc Hdoc].
  { apply Marshal_is_Some. eapply same_but_artwork_Marshal; [exact HF|].
    by rewrite SliceStable_Permutation. }
  unfold writeSortedFile, Encode, Write, Create; unfold_M.
  rewrite Hcreate, Hdoc, Hwrite. simpl. by eexists.
Qed.

Lemma main_succeeds_witness :
  readEndsongFiles scanned (runEnv scenarioB artwork_of true true) world0
  = ({| output := [FileDone "endsong_0.json"]; calls := []; bar := 0;
        sorted_streams := NoFile |}, Ok scenarioB)
  ∧ config_Token (runEnv scenarioB artwork_of true true) = true
  ∧ Forall (λ s, SpotifyTrackURI s ≠ "spotify") scenarioB
  ∧ (∀ n id, ∃ a imgs,
       client_GetTrack (runEnv scenarioB artwork_of true true) n id
       = Track (a :: imgs))
  ∧ Forall (λ s, is_Some (Time_MarshalJSON (runEnv scenarioB artwork_of true true)
                            (Ts s))) scenarioB
  ∧ os_Create (runEnv scenarioB artwork_of true true) = true
  ∧ File_Write (runEnv scenarioB artwork_of true true) = true
  ∧ ∃ w', main scanned (runEnv scenarioB artwork_of true true) world0 = (w', Ok tt).
Proof.
  assert (readEndsongFiles scanned (runEnv scenarioB artwork_of true true) world0
          = ({| output := [FileDone "endsong_0.json"]; calls := []; bar := 0;
                sorted_streams := NoFile |}, Ok scenarioB))
    as Hread by (vm_compute; reflexivity).
  assert (Forall (λ s, SpotifyTrackURI s ≠ "spotify") scenarioB) as Huri
    by (repeat constructor; simpl; discriminate).
  assert (∀ n id, ∃ a imgs,
            client_GetTrack (runEnv scenarioB artwork_of true true) n id
            = Track (a :: imgs)) as Hremote
    by (intros n id; eexists _, _; reflexivity).
  assert (Forall (λ s, is_Some (Time_MarshalJSON
                                  (runEnv scenarioB artwork_of true true) (Ts s)))
            scenarioB) as Htime
    by (repeat constructor; eexists; vm_compute; reflexivity).
  split; [exact Hread|]. split; [reflexivity|]. split; [exact Huri|].
  split; [exact Hremote|]. split; [exact Htime|]. do 2 (split; [reflexivity|]).
  exact (main_succeeds scanned (runEnv scenarioB artwork_of true true) world0 _ _
           Hread eq_refl Huri Hremote Htime eq_refl eq_refl).
Defined.

(** X13.  After a successful run either no record was loaded and the
    output file is as it was, or the file holds the encoding of the loaded
    records in the order of the stable sort by instant, each record changed
    in its artwork url at most; the records of the file are in order of
    their instants, their integers are in the range of int64, and when the
    time codec round-trips the file decodes to them. *)
Theorem successful_run v env w w' :
  main v env w = (w', Ok tt) →
  ∃ w0 allStreams,
    readEndsongFiles v env w = (w0, Ok allStreams)
    ∧ ((allStreams = [] ∧ sorted_streams w' = sorted_streams w)
       ∨ ∃ out doc,
           sorted_streams w' = Holds doc
           ∧ Marshal env out = Some doc
           ∧ length out = length allStreams
           ∧ Forall2 (λ s s', s' = setArtworkURL s (ArtworkURL s'))
               (SliceStable lessTs allStreams) out
           ∧ StronglySorted le_ts out
           ∧ Forall wfStream out
           ∧ (Forall (time_law env) allStreams →
              Unmarshal env (Some doc) = Some out)).
Proof.
  intros Hrun.
  destruct (readEndsongFiles v env w) as [w0 r0] eqn:E0.
  destruct r0 as [allStreams| | |];
    try (by rewrite main_cases, E0 in Hrun).
  apply readEndsongFiles_frame in E0 as Hfr. destruct Hfr as [_ Hf0].
  apply readEndsongFiles_wf in E0 as Hwf.
  exists w0, allStreams. split; [done|].
  destruct (decide (allStreams = [])) as [->|Hne].
  { left. rewrite main_cases, E0 in Hrun. cbv zeta in Hrun. simplify_eq.
    split; [done|exact Hf0]. }
  right. rewrite (main_nonempty _ _ _ _ _ E0 Hne) in Hrun.
  destruct (addStreamArtworks _ _ _ _) as [w2 [out| | |]] eqn:E2; try done.
  apply addStreamArtworks_spec in E2
    as [(_ & _ & [=])|(_ & w3 & r3 & cs & _ & Hpost & _ & _ & Hr)].
  destruct r3 as [[out' m']| | |]; simpl in Hr; try done. injection Hr as <-.
  destruct Hpost as (_ & _ & _ & _ & _ & _ & _ & _ & HF & _).
  apply enriched_Ts in HF.
  unfold writeSortedFile, Encode, Write, Create in Hrun; unfold_M.
  destruct (Marshal env out) as [doc|] eqn:HM;
    [|by repeat case_match; simplify_eq].
  destruct (os_Create env), (File_Write env); simpl in Hrun; simplify_eq.
  assert (Forall wfStream out) as Hwfo.
  { eapply same_but_artwork_wf; [exact HF|]. by rewrite SliceStable_Permutation. }
  exists out, doc. split; [done|]. split; [done|].
  split. { rewrite <- (Forall2_length _ _ _ HF). by rewrite SliceStable_Permutation. }
  split; [done|].
  split. { eapply same_but_artwork_sorted; [exact HF|]. apply SliceStable_sorted. }
  split; [done|].
  intros Hlaw.
  assert (Forall (time_law env) out) as Hlawo.
  { assert (Forall (time_law env) (SliceStable lessTs allStreams)) as Hl
      by by rewrite SliceStable_Permutation.
    clear -HF Hl. induction HF as [|s s' l out Hs HF IH]; [constructor|].
    apply Forall_cons in Hl as [Hh Hl]. constructor; [|by apply IH].
    unfold time_law in *. by rewrite Hs. }
  unfold Marshal in HM. destruct out as [|o out]; [by simplify_eq|].
  destruct (mapM (Marshal_Stream env) (o :: out)) as [items|] eqn:Hitems;
    simpl in HM; simplify_eq.
  simpl. by apply Unmarshal_Marshal_list.
Qed.

Lemma successful_run_witness :
  main scanned (runEnv scenarioB artwork_of true true) world0
  = ((main scanned (runEnv scenarioB artwork_of true true) world0).1, Ok tt)
  ∧ ∃ w0 allStreams,
      readEndsongFiles scanned (runEnv scenarioB artwork_of true true) world0
      = (w0, Ok allStreams)
      ∧ ((allStreams = []
          ∧ sorted_streams
              (main scanned (runEnv scenarioB artwork_of true true) world0).1
            = sorted_streams world0)
         ∨ ∃ out doc,
             sorted_streams
               (main scanned (runEnv scenarioB artwork_of true true) world0).1
             = Holds doc
             ∧ Marshal (runEnv scenarioB artwork_of true true) out = Some doc
             ∧ length out = length allStreams
             ∧ Forall2 (λ s s', s' = setArtworkURL s (ArtworkURL s'))
                 (SliceStable lessTs allStreams) out
             ∧ StronglySorted le_ts out
             ∧ Forall wfStream out
             ∧ (Forall (time_law (runEnv scenarioB artwork_of true true)) allStreams →
                Unmarshal (runEnv scenarioB artwork_of true true) (Some doc)
                = Some out)).
Proof.
  assert (main scanned (runEnv scenarioB artwork_of true true) world0
          = ((main scanned (runEnv scenarioB artwork_of true true) world0).1, Ok tt))
    as Hrun by (vm_compute; reflexivity).
  split; [exact Hrun|].
  exact (successful_run scanned (runEnv scenarioB artwork_of true true) world0 _ Hrun).
Defined.

(** ** More on the merger *)

Lemma filter_instant_NoDup (l : list Stream) (t : Z) :
  NoDup (instant <$> l) → (length (filter (λ s, unixNano (Ts s) = t) l) ≤ 1)%nat.
Proof.
  induction l as [|x l IH]; simpl; [lia|].
  intros [Hx Hnd]%NoDup_cons. specialize (IH Hnd).
  rewrite filter_cons. case_decide as Ht; [|done]. simpl.
  destruct (filter (λ s, unixNano (Ts s) = t) l) as [|y ys] eqn:E; [simpl; lia|].
  exfalso. apply Hx.
  assert (y ∈ filter (λ s, unixNano (Ts s) = t) l) as Hy by (rewrite E; left).
  apply list_elem_of_filter in Hy as [Hyt Hy].
  apply list_elem_of_fmap. exists y. split; [|done]. unfold instant. congruence.
Qed.

(** X14.  The sort of [main] leaves a list that is already in order of its
    instants as it is. *)
Theorem merger_keeps_a_sorted_input l :
  StronglySorted le_ts l → SliceStable lessTs l = l.
Proof.
  intros Hs. apply sorted_by_instant_unique; [apply SliceStable_sorted|done|].
  apply SliceStable_filter.
Qed.

Lemma merger_keeps_a_sorted_input_witness :
  StronglySorted le_ts sortedB ∧ SliceStable lessTs sortedB = sortedB.
Proof.
  assert (StronglySorted le_ts sortedB) as Hs
    by (repeat constructor; unfold le_ts; simpl; lia).
  split; [exact Hs|].
  exact (merger_keeps_a_sorted_input sortedB Hs).
Defined.

Lemma SliceStable_distinct_instants l1 l2 :
  l1 ≡ₚ l2 → NoDup (instant <$> l1) →
  SliceStable lessTs l1 = SliceStable lessTs l2.
Proof.
  intros Hp Hnd.
  apply sorted_by_instant_unique; [apply SliceStable_sorted..|].
  intros t. rewrite !SliceStable_filter.
  pose proof (filter_instant_NoDup l1 t Hnd) as H1.
  assert (NoDup (instant <$> l2)) as Hnd2 by by rewrite <- Hp.
  pose proof (filter_instant_NoDup l2 t Hnd2) as H2.
  assert (filter (λ s, unixNano (Ts s) = t) l1
          ≡ₚ filter (λ s, unixNano (Ts s) = t) l2) as Hf by by rewrite Hp.
  destruct (filter (λ s, unixNano (Ts s) = t) l1) as [|x [|? ?]],
           (filter (λ s, unixNano (Ts s) = t) l2) as [|y [|? ?]];
    simpl in *; try lia; try done.
  - by apply Permutation_nil_cons in Hf.
  - symmetry in Hf. by apply Permutation_nil_cons in Hf.
  - by apply Permutation_singleton_inj in Hf as ->.
Qed.

(** X15.  When no two records have the same instant, the sort of [main]
    gives the same list for every order in which the records were read. *)
Theorem merger_forgets_the_order_of_reading l1 l2 :
  l1 ≡ₚ l2 → NoDup (instant <$> l1) →
  SliceStable lessTs l1 = SliceStable lessTs l2.
Proof. apply SliceStable_distinct_instants. Qed.

Lemma merger_forgets_the_order_witness :
  scenarioB ≡ₚ sortedB
  ∧ NoDup (instant <$> scenarioB)
  ∧ SliceStable lessTs scenarioB = SliceStable lessTs sortedB.
Proof.
  assert (scenarioB ≡ₚ sortedB) as Hp
    by (apply (Permutation_cons_app [stream 1 "spotify:track:AAA"]
                 [stream 3 "spotify:episode:BBB"]), perm_swap).
  assert (NoDup (instant <$> scenarioB)) as Hnd
    by (apply (bool_decide_unpack _); vm_compute; reflexivity).
  split; [exact Hp|]. split; [exact Hnd|].
  exact (merger_forgets_the_order_of_reading scenarioB sortedB Hp Hnd).
Defined.

(** X16.  The two variants on one directory: when the files
    [endsong_0.json] to [endsong_(k-1).json] exist and decode, [k] being
    positive, [endsong_k.json] does not exist, and the entries of the
    listing that pass the filter are these [k] files in some order, both
    loaders succeed with the same records up to their order, and when no two
    records have the same instant the sorted lists are equal. *)
Theorem variants_load_the_same_records env k fuel files w :
  (0 < k < fuel)%nat →
  (∀ j, (j < k)%nat →
        os_Stat env (endsong j) = StatOk ∧ is_Some (decodes env (endsong j))) →
  os_Stat env (endsong k) = StatNotExist →
  ioutil_ReadDir env = Some files →
  filter (λ n, isInput n = true) files ≡ₚ endsong <$> seq 0 k →
  ∃ wn ws ln ls,
    Numbered.readEndsongFiles env fuel w = (wn, Ok ln)
    ∧ Scanned.readEndsongFiles env w = (ws, Ok ls)
    ∧ ls ≡ₚ ln
    ∧ (NoDup (instant <$> ln) → SliceStable lessTs ls = SliceStable lessTs ln).
Proof.
  intros Hk Hok Hgap Hdir Hperm.
  assert (Forall (λ n, is_Some (decodes env n)) (endsong <$> seq 0 k)) as Hall.
  { apply Forall_fmap, Forall_forall. intros j Hj%elem_of_seq. apply Hok. lia. }
  unfold Numbered.readEndsongFiles.
  replace fuel with (k + S (fuel - S k))%nat by lia.
  rewrite Numbered_loop_steps by (intros j Hj; apply Hok; lia).
  cbn [Numbered.loop Nat.add]. fold (endsong k). rewrite Hgap.
  destruct k as [|k]; [lia|]. cbn [Nat.eqb].
  unfold Scanned.readEndsongFiles.
  rewrite Hdir, Scanned_loop_readFiles, readFiles_all by by rewrite Hperm.
  eexists _, _, _, _. split; [done|]. split; [done|]. simpl.
  assert (contents env (filter (λ n, isInput n = true) files)
          ≡ₚ contents env (endsong <$> seq 0 (S k))) as Hc.
  { unfold contents. by rewrite Hperm. }
  split; [done|]. intros Hnd.
  apply SliceStable_distinct_instants; [done|]. by rewrite Hc.
Qed.

Lemma variants_load_the_same_records_witness :
  (0 < 2 < 5)%nat
  ∧ (∀ j, (j < 2)%nat →
          os_Stat (dirEnv wholeDir artwork_of) (endsong j) = StatOk
          ∧ is_Some (decodes (dirEnv wholeDir artwork_of) (endsong j)))
  ∧ os_Stat (dirEnv wholeDir artwork_of) (endsong 2) = StatNotExist
  ∧ ioutil_ReadDir (dirEnv wholeDir artwork_of) = Some wholeDir.*1
  ∧ filter (λ n, isInput n = true) wholeDir.*1 ≡ₚ endsong <$> seq 0 2
  ∧ ∃ wn ws ln ls,
      Numbered.readEndsongFiles (dirEnv wholeDir artwork_of) 5 world0 = (wn, Ok ln)
      ∧ Scanned.readEndsongFiles (dirEnv wholeDir artwork_of) world0 = (ws, Ok ls)
      ∧ ls ≡ₚ ln
      ∧ (NoDup (instant <$> ln) → SliceStable lessTs ls = SliceStable lessTs ln).
Proof.
  assert (0 < 2 < 5)%nat as Hk by lia.
  assert (∀ j, (j < 2)%nat →
            os_Stat (dirEnv wholeDir artwork_of) (endsong j) = StatOk
            ∧ is_Some (decodes (dirEnv wholeDir artwork_of) (endsong j))) as Hok
    by (intros [|[|j]] Hj; [split; [reflexivity|eexists; vm_compute; reflexivity]..
                           |lia]).
  assert (filter (λ n, isInput n = true) wholeDir.*1 ≡ₚ endsong <$> seq 0 2) as Hp
    by (vm_compute; reflexivity).
  split; [exact Hk|]. split; [exact Hok|]. do 2 (split; [reflexivity|]).
  split; [exact Hp|].
  exact (variants_load_the_same_records (dirEnv wholeDir artwork_of) 2 5
           wholeDir.*1 world0 Hk Hok eq_refl eq_refl Hp).
Defined.

(** ** The names the scan reads *)

Lemma length_append (t u : string) :
  String.length (t +:+ u) = (String.length t + String.length u)%nat.
Proof.
  induction t as [|c t IH]; [done|].
  change (S (String.length (t +:+ u)) = S (String.length t + String.length u)).
  by rewrite IH.
Qed.

Lemma substring_whole (u : string) : substring 0 (String.length u) u = u.
Proof. induction u as [|c u IH]; [done|]. simpl. by rewrite IH. Qed.

Lemma substring_append (t u : string) :
  substring (String.length t) (String.length u) (t +:+ u) = u.
Proof.
  induction t as [|c t IH]; [apply substring_whole|].
  change (substring (String.length t) (String.length u) (t +:+ u) = u).
  exact IH.
Qed.

Lemma split_at (n : nat) : ∀ s,
  (n ≤ String.length s)%nat → ∃ t u, s = t +:+ u ∧ String.length t = n.
Proof.
  induction n as [|n IH]; intros s Hn.
  - by exists EmptyString, s.
  - destruct s as [|c s]; [simpl in Hn; lia|].
    destruct (IH s) as (t & u & -> & Ht); [simpl in Hn; lia|].
    exists (String c t), u. split; [done|]. simpl. by rewrite Ht.
Qed.

Lemma HasSuffix_app s suffix : HasSuffix s suffix = true ↔ ∃ t, s = t +:+ suffix.
Proof.
  unfold HasSuffix. rewrite andb_true_iff, Nat.leb_le. split.
  - intros [Hlen Heq%String.eqb_eq].
    destruct (split_at (String.length s - String.length suffix) s)
      as (t & u & -> & Ht); [lia|].
    rewrite length_append in Hlen, Heq.
    assert (String.length u = String.length suffix) as Hu
      by (rewrite length_append in Ht; lia).
    replace (String.length t + String.length u - String.length suffix)%nat
      with (String.length t) in Heq by lia.
    rewrite <- Hu, substring_append in Heq. exists t. by rewrite Heq.
  - intros [t ->]. rewrite length_append. split; [lia|].
    replace (String.length t + String.length suffix - String.length suffix)%nat
      with (String.length t) by lia.
    rewrite substring_append. apply String.eqb_refl.
Qed.

Lemma append_assoc (a b c : string) : (a +:+ b) +:+ c = a +:+ (b +:+ c).
Proof.
  induction a as [|x a IH]; [done|].
  change (String x ((a +:+ b) +:+ c) = String x (a +:+ (b +:+ c))).
  by rewrite IH.
Qed.

(** A name that begins with a prefix without dots and ends in [".json"]
    holds the two side by side. *)
Lemma stem_between (p rest : string) :
  contains p "." = false →
  HasSuffix (p +:+ rest) ".json" = true →
  ∃ stem, rest = stem +:+ ".json".
Proof.
  induction p as [|c p IH]; intros Hp Hs.
  - by apply HasSuffix_app in Hs.
  - cbn [contains] in Hp. apply orb_false_iff in Hp as [Hc Hp].
    apply IH; [done|].
    apply HasSuffix_app in Hs as [t Ht]. apply HasSuffix_app.
    destruct t as [|c' t].
    + change (String c (p +:+ rest) = ".json") in Ht.
      injection Ht as -> _. done.
    + change (String c (p +:+ rest) = String c' (t +:+ ".json")) in Ht.
      injection Ht as _ ->. by exists t.
Qed.

(** X17.  The scan reads the entries whose name is ["endsong_"] or
    ["Streaming_History_Audio_"], then anything, then [".json"], and no
    other entry. *)
Theorem isInput_iff fileName :
  isInput fileName = true
  ↔ ∃ stem, fileName = "endsong_" +:+ stem +:+ ".json"
            ∨ fileName = "Streaming_History_Audio_" +:+ stem +:+ ".json".
Proof.
  unfold isInput. rewrite andb_true_iff, orb_true_iff. split.
  - intros [Hs [Hp|Hp]]; apply HasPrefix_app in Hp as [rest ->];
      apply stem_between in Hs as [stem ->]; try done; exists stem; auto.
  - intros [stem [->| ->]].
    + split; [|left; apply HasPrefix_app; by eexists].
      apply HasSuffix_app. exists ("endsong_" +:+ stem).
      by rewrite append_assoc.
    + split; [|right; apply HasPrefix_app; by eexists].
      apply HasSuffix_app. exists ("Streaming_History_Audio_" +:+ stem).
      by rewrite append_assoc.
Qed.
